(** * scaffold_from_tree: a shallow embedding of [tools/scaffold_from_tree.py]

    The development follows the layout of the Python module:

    - [Text]: Python [str] values as sequences of code points, with the
      [str] methods and the regular expressions the module uses;
    - [PurePath]: [pathlib]'s lexical path algebra on POSIX;
    - [Parser]: [is_tree_line] and [normalize_root_and_entries];
    - [Extractor]: [extract_tree_block];
    - [Fs] and [Scaffold]: a POSIX file system and [create_scaffold];
    - [LineFilter] and [Cli]: [parse_tree_lines], [load_source] and
      [main]. *)

From Stdlib Require Import NArith List Bool Lia String Ascii Sorted.
From stdpp Require Import base option list gmap.
Import ListNotations.

(** ** Python exceptions and results *)

Inductive exn : Type :=
| IndexError
| ValueError
| FileExistsError
| FileNotFoundError
| NotADirectoryError
| IsADirectoryError
| UnicodeEncodeError
| UnicodeDecodeError.

(** [isinstance(e, OSError)]; the two Unicode errors are [ValueError]s. *)
Definition is_OSError (e : exn) : bool :=
  match e with
  | FileExistsError | FileNotFoundError | NotADirectoryError
  | IsADirectoryError => true
  | IndexError | ValueError | UnicodeEncodeError | UnicodeDecodeError => false
  end.

Inductive result (A : Type) : Type :=
| Ok (a : A)
| Raise (e : exn).
Arguments Ok {A} a.
Arguments Raise {A} e.

#[global] Instance result_ret : MRet result := fun A a => Ok a.
#[global] Instance result_bind : MBind result := fun A B k r =>
  match r with
  | Ok a => k a
  | Raise e => Raise e
  end.

(** ** Text: Python strings *)

Module Text.

(** A Python [str] is a sequence of Unicode code points; [len] counts code
    points, so the box-drawing connectors each have length one. *)
Abbreviation str := (list N).

(** ASCII literals. *)
Definition u (s : string) : str :=
  map N_of_ascii (list_ascii_of_string s).
Arguments u s%_string.

Definition VBAR : N := 9474%N.   (* U+2502, vertical bar *)
Definition TEE : N := 9500%N.    (* U+251C, tee *)
Definition ELBOW : N := 9492%N.  (* U+2514, elbow *)
Definition DASH : N := 9472%N.   (* U+2500, horizontal dash *)
Definition SP : N := 32%N.
Definition NL : N := 10%N.
Definition SLASH : N := 47%N.
Definition BACKSLASH : N := 92%N.
Definition HASH : N := 35%N.
Definition BACKTICK : N := 96%N.

(** [TREE_CHARS = "│├└─"] *)
Definition TREE_CHARS : str := [VBAR; TEE; ELBOW; DASH].

Definition mem (c : N) (chars : str) : bool := existsb (N.eqb c) chars.

(** [str.isspace] on one code point; the same set is what [str.strip()],
    [str.split()] and the regular expression class [\s] use. *)
Definition isspace (c : N) : bool :=
  ((9 <=? c) && (c <=? 13) || (28 <=? c) && (c <=? 32)
   || (c =? 133) || (c =? 160) || (c =? 5760)
   || (8192 <=? c) && (c <=? 8202)
   || (c =? 8232) || (c =? 8233) || (c =? 8239) || (c =? 8287)
   || (c =? 12288))%N.

Fixpoint drop_while (p : N -> bool) (s : str) : str :=
  match s with
  | [] => []
  | c :: s' => if p c then drop_while p s' else s
  end.

Fixpoint take_while (p : N -> bool) (s : str) : str :=
  match s with
  | [] => []
  | c :: s' => if p c then c :: take_while p s' else []
  end.

Definition lstrip_by (p : N -> bool) (s : str) : str := drop_while p s.
Definition rstrip_by (p : N -> bool) (s : str) : str :=
  rev (drop_while p (rev s)).
Definition strip_by (p : N -> bool) (s : str) : str :=
  rstrip_by p (lstrip_by p s).

(** [s.strip()], [s.rstrip()], [s.strip(chars)], [s.rstrip(chars)] *)
Definition strip (s : str) : str := strip_by isspace s.
Definition rstrip (s : str) : str := rstrip_by isspace s.
Definition strip_chars (chars s : str) : str :=
  strip_by (fun c => mem c chars) s.
Definition rstrip_chars (chars s : str) : str :=
  rstrip_by (fun c => mem c chars) s.

Definition is_empty {A} (s : list A) : bool :=
  match s with [] => true | _ => false end.

Definition str_eqb (a b : str) : bool := bool_decide (a = b).

Fixpoint startswith (s pre : str) : bool :=
  match pre, s with
  | [], _ => true
  | p :: pre', c :: s' => (c =? p)%N && startswith s' pre'
  | _ :: _, [] => false
  end.

Definition endswith (s suf : str) : bool := startswith (rev s) (rev suf).

(** [sub in s] for strings *)
Fixpoint contains (s sub : str) : bool :=
  startswith s sub ||
  match s with
  | [] => false
  | _ :: s' => contains s' sub
  end.

(** [s.split()]: the maximal runs of non-whitespace. [cur] is the token
    being read, reversed. *)
Fixpoint split_ws_aux (cur : str) (s : str) : list str :=
  match s with
  | [] => match cur with [] => [] | _ => [rev cur] end
  | c :: s' =>
      if isspace c
      then match cur with
           | [] => split_ws_aux [] s'
           | _ => rev cur :: split_ws_aux [] s'
           end
      else split_ws_aux (c :: cur) s'
  end.
Definition split_ws (s : str) : list str := split_ws_aux [] s.

(** [s.split(sep, 1)[0]] for a one-character [sep] *)
Definition before_first (sep : N) (s : str) : str :=
  take_while (fun c => negb (c =? sep)%N) s.

(** [sep.join(parts)] *)
Fixpoint join (sep : str) (parts : list str) : str :=
  match parts with
  | [] => []
  | [p] => p
  | p :: rest => p ++ sep ++ join sep rest
  end.

(** [re.sub] with a character class and the empty replacement: the
    characters of [chars] are removed. *)
Definition remove_chars (chars s : str) : str :=
  filter (fun c => mem c chars = false) s.

(** [len(re.findall("[chars]", s))] *)
Definition count_chars (chars s : str) : nat :=
  length (filter (fun c => mem c chars = true) s).

(** [xs[-1]], which raises [IndexError] on the empty list *)
Definition last_item {A} (xs : list A) : result A :=
  match last xs with
  | Some x => Ok x
  | None => Raise IndexError
  end.

(** [xs.index(x)]: the position of the first element equal to [x] *)
Fixpoint index (xs : list str) (x : str) : result nat :=
  match xs with
  | [] => Raise ValueError
  | y :: ys =>
      if str_eqb y x then Ok 0
      else i ← index ys x; Ok (S i)
  end.

End Text.
Import Text.

(** ** PurePath: the lexical path algebra of [pathlib] on POSIX *)

Module PurePath.

(** A parsed path: the root (empty, one slash or two slashes) and the parts
    below it. *)
Record Path : Type := mkPath { p_root : str; p_parts : list str }.

#[global] Instance Path_eq_dec : EqDecision Path.
Proof. solve_decision. Defined.

(** [posixpath.splitroot], without the drive, which is empty on POSIX *)
Definition splitroot (p : str) : str * str :=
  match p with
  | c0 :: rest =>
      if (c0 =? SLASH)%N then
        match rest with
        | c1 :: rest' =>
            if (c1 =? SLASH)%N && negb (startswith rest' [SLASH])
            then ([SLASH; SLASH], rest')
            else ([SLASH], rest)
        | [] => ([SLASH], rest)
        end
      else ([], p)
  | [] => ([], [])
  end.

(** [s.split(sep)] for a one-character [sep]; [cur] is the piece being read,
    reversed. *)
Fixpoint split_on (sep : N) (cur : str) (s : str) : list str :=
  match s with
  | [] => [rev cur]
  | c :: s' =>
      if (c =? sep)%N then rev cur :: split_on sep [] s'
      else split_on sep (c :: cur) s'
  end.

Definition is_part (x : str) : bool :=
  negb (is_empty x) && negb (str_eqb x (u ".")).

(** [Path(s)] *)
Definition Path_of (s : str) : Path :=
  let '(root, rel) := splitroot s in
  mkPath root (List.filter is_part (split_on SLASH [] rel)).

(** [str(p)] *)
Definition path_str (p : Path) : str :=
  match p_root p, p_parts p with
  | [], [] => u "."
  | root, parts => root ++ join [SLASH] parts
  end.

(** [a / b] *)
Definition path_div (a b : Path) : Path :=
  if is_empty (p_root b)
  then mkPath (p_root a) (p_parts a ++ p_parts b)
  else b.

(** [p.parent] *)
Definition path_parent (p : Path) : Path :=
  match p_parts p with
  | [] => p
  | _ => mkPath (p_root p) (removelast (p_parts p))
  end.

End PurePath.
Import PurePath.

(** ** Parser: the line filter and the tree parser *)

Module Parser.

(** An entry of the result: [(relative_path_str, is_dir)]. *)
Abbreviation entry := (str * bool)%type.

(** [is_tree_line] *)
Definition is_tree_line (line : str) : bool :=
  if is_empty (strip line) then false
  else existsb (contains line) [[TEE]; [ELBOW]; [VBAR]; [DASH; DASH]]
       || contains line [SLASH] || contains line [BACKSLASH].

(** [os.sep] on POSIX *)
Definition os_sep : str := [SLASH].

(** The length of group 1 of [re.match] with the pattern of [indent_match]:
    the leading run of whitespace and vertical bars. The pattern matches
    every string, so the [else 0] branch of the source is never taken. *)
Definition indent_of (ln : str) : nat :=
  length (take_while (fun c => isspace c || (c =? VBAR)%N) ln).

(** The second [re.sub] of the clean-up: a leading tee or elbow with two
    dashes, or two dashes alone, is removed with the whitespace after it. *)
Definition strip_branch_marker (s : str) : str :=
  if startswith s [TEE; DASH; DASH] then drop_while isspace (skipn 3 s)
  else if startswith s [ELBOW; DASH; DASH] then drop_while isspace (skipn 3 s)
  else if startswith s [DASH; DASH] then drop_while isspace (skipn 2 s)
  else s.

(** The three statements that clean a line up to its name, before the
    comment is removed. *)
Definition clean_line (ln : str) : str :=
  (* the first re.sub: the leading run of whitespace and tree characters *)
  let s := drop_while (fun c => isspace c || mem c TREE_CHARS) ln in
  let s := strip_branch_marker s in
  strip s.

(** The inner [for next_ln in next_lines] loop; the result is the value of
    [is_dir] when the loop is left, [is_dir] being [False] on entry. *)
Fixpoint lookahead (indent_level : nat) (next_lines : list str) : bool :=
  match next_lines with
  | [] => false
  | next_ln :: rest =>
      if is_empty (strip next_ln) then lookahead indent_level rest
      else
        let next_indent := indent_of next_ln in
        if indent_level <? next_indent then true
        else (* next_indent <= indent_level *) false
  end.

(** [while len(dir_stack) >= tree_depth: dir_stack.pop()]. The counter [n]
    is [len(dir_stack)]; at [0] the list is empty and [pop] raises. *)
Fixpoint pop_to_depth (n : nat) (dir_stack : list str) (tree_depth : nat)
  : result (list str) :=
  if tree_depth <=? length dir_stack then
    match n with
    | 0 => Raise IndexError
    | S n' => pop_to_depth n' (removelast dir_stack) tree_depth
    end
  else Ok dir_stack.

(** The text of the entry on a line, after the clean-up and the removal of
    the comment; [None] where the source says [continue]. *)
Definition entry_text (ln : str) : option str :=
  let s := clean_line ln in
  if is_empty s then None else
  let s := strip (before_first HASH s) in
  if is_empty s then None else Some s.

(** The guarded lookahead of the source, entered when the name has no
    trailing separator: the lines after [lines.index(original_line)]. *)
Definition infer_by_lookahead (lines : list str) (original_line : str)
    (indent_level : nat) : result bool :=
  i ← index lines original_line;
  if i + 1 <? length lines
  then Ok (lookahead indent_level (skipn (i + 1) lines))
  else Ok false.

(** [tree_depth]: the connectors among the first [indent_level + 10]
    characters of the line. *)
Definition tree_depth_of (original_line : str) (indent_level : nat) : nat :=
  count_chars [VBAR; TEE; ELBOW] (firstn (indent_level + 10) original_line).

(** The state of the main loop: [entries] and [dir_stack]. *)
Abbreviation pstate := (list entry * list str)%type.

(** The body of [for ln in lines[1:]]. *)
Definition process_line (lines : list str) (st : pstate) (ln : str)
  : result pstate :=
  let '(entries, dir_stack) := st in
  let original_line := ln in
  let indent_level := indent_of ln in
  match entry_text ln with
  | None => Ok st
  | Some s =>
      let is_dir := endswith s [SLASH] || endswith s os_sep in
      let filename := strip (rstrip_chars [SLASH] s) in
      is_dir ←
        (if negb is_dir return result bool
         then infer_by_lookahead lines original_line indent_level
         else Ok true);
      let tree_depth := tree_depth_of original_line indent_level in
      dir_stack ← pop_to_depth (length dir_stack) dir_stack tree_depth;
      let rel_path :=
        if is_empty dir_stack then filename
        else join [SLASH] (dir_stack ++ [filename]) in
      let entries := entries ++ [(rel_path, is_dir)] in
      let dir_stack :=
        if is_dir then dir_stack ++ [filename] else dir_stack in
      Ok (entries, dir_stack)
  end.

Fixpoint parse_loop (lines : list str) (st : pstate) (todo : list str)
  : result pstate :=
  match todo with
  | [] => Ok st
  | ln :: todo' => st' ← process_line lines st ln; parse_loop lines st' todo'
  end.

(** The statements that compute [root_dir] from [lines[0]]. *)
Definition root_of_line (first : str) : result Path :=
  let root_line := strip first in
  let root_name := strip (strip_chars (TREE_CHARS ++ [SP]) root_line) in
  root_name ← last_item (split_ws root_name);
  let root_name := strip (remove_chars (TREE_CHARS ++ [SP]) root_name) in
  Ok (Path_of (rstrip_chars [SLASH] root_name)).

(** [normalize_root_and_entries] *)
Definition normalize_root_and_entries (lines : list str)
  : result (Path * list entry) :=
  match lines with
  | [] => Ok (Path_of (u "."), [])
  | first :: rest =>
      root_dir ← root_of_line first;
      st ← parse_loop lines ([], []) rest;
      Ok (root_dir, fst st)
  end.

End Parser.
Import Parser.

(** ** Extractor: [extract_tree_block] *)

Module Extractor.

(** The class of the language hint: [a-zA-Z0-9_-]. *)
Definition is_tag_char (c : N) : bool :=
  ((97 <=? c) && (c <=? 122) || (65 <=? c) && (c <=? 90)
   || (48 <=? c) && (c <=? 57) || (c =? 95) || (c =? 45))%N.

Definition FENCE : str := [BACKTICK; BACKTICK; BACKTICK].

(** The lazy group followed by the closing fence: the text before the first
    fence in [s], and the text after that fence. *)
Fixpoint until_fence (s : str) : option (str * str) :=
  if startswith s FENCE then Some ([], skipn 3 s)
  else match s with
       | [] => None
       | c :: s' =>
           match until_fence s' with
           | Some (g, rest) => Some (c :: g, rest)
           | None => None
           end
       end.

(** One match of the pattern of [extract_tree_block] at the start of [s]:
    a fence, the longest run of hint characters, a newline, the group and the
    closing fence. The hint class excludes the newline, so giving back hint
    characters never helps. Returns the group and the text after the match. *)
Definition match_fence (s : str) : option (str * str) :=
  if startswith s FENCE then
    match drop_while is_tag_char (skipn 3 s) with
    | c :: s' => if (c =? NL)%N then until_fence s' else None
    | [] => None
    end
  else None.

(** [re.findall(pattern, markdown, flags=re.S)]: the groups of the leftmost
    non-overlapping matches. [skip] is the number of characters still covered
    by the last match. *)
Fixpoint findall_fences (skip : nat) (s : str) : list str :=
  match s with
  | [] => []
  | _ :: s' =>
      match skip with
      | S k => findall_fences k s'
      | 0 =>
          match match_fence s with
          | Some (g, rest) =>
              g :: findall_fences (length s - length rest - 1) s'
          | None => findall_fences 0 s'
          end
      end
  end.

(** [sorted(fences, key=len, reverse=True)]; the sort is stable, so blocks of
    equal length keep their order. *)
Fixpoint insert_by_len (x : str) (l : list str) : list str :=
  match l with
  | [] => [x]
  | y :: l' =>
      if length y <=? length x then x :: l else y :: insert_by_len x l'
  end.
Definition sorted_by_len_desc (l : list str) : list str :=
  foldr insert_by_len [] l.

(** The test of the [for block in fences] loop. *)
Definition looks_like_tree (block : str) : bool :=
  existsb (fun ch => contains block [ch]) TREE_CHARS
  || contains block [SP; SLASH] || contains block [BACKSLASH].

(** [extract_tree_block] *)
Definition extract_tree_block (markdown : str) : str :=
  match findall_fences 0 markdown with
  | [] => strip markdown
  | fences =>
      let fences := sorted_by_len_desc fences in
      match List.find looks_like_tree fences with
      | Some block => strip block
      | None => strip (hd [] fences)
      end
  end.

End Extractor.
Import Extractor.

(** ** Fs: a POSIX file system *)

Module Fs.

(** The model covers directories and regular files on POSIX, as far as
    Python and the kernel decide without regard to the machine: there are no
    symbolic links and no permissions, and no limit of the machine is
    reached (the length of a name or of a path, the space on the device, the
    depth of Python's call stack).

    A node is found at its canonical location, the names from the node up to
    the root (innermost first); the root directory is the empty location.

    The content of a file is its bytes, written as the text that
    [bytes.decode("utf-8", "surrogateescape")] gives for them: each
    character of a well-formed UTF-8 sequence is its code point, and each
    other byte [b] is the escape U+DC00 + [b], a code point from U+DC80 to
    U+DCFF. So a text without surrogates stands for its own UTF-8 encoding,
    and a content with an escape is one that is not UTF-8. *)
Inductive node : Type :=
| Dir
| File (content : str).

#[global] Instance node_eq_dec : EqDecision node.
Proof. solve_decision. Defined.

Abbreviation loc := (list str).

(** What a mutating call did: [Mkdir] for a directory made by [os.mkdir];
    [Write] for a file opened for writing, which creates or truncates it,
    with the content it had when it was closed. *)
Inductive event : Type :=
| Mkdir (at_loc : loc)
| Write (at_loc : loc) (content : str).

(** The state: the nodes, the working directory of the process, and the log
    of the mutating calls made so far. *)
Record fs : Type := mkFs {
  nodes : gmap loc node;
  cwd : loc;
  oplog : list event
}.

Definition node_at (st : fs) (l : loc) : option node :=
  match l with
  | [] => Some Dir
  | _ => nodes st !! l
  end.

Arguments node_at _ _ : simpl never.

Definition DOTDOT : str := u "..".

(** Path resolution through directories: from the directory at [cur], follow
    [comps], each of which has to name a directory. The parent of a directory
    is a directory, and the parent of the root is the root. *)
Fixpoint walk (st : fs) (cur : loc) (comps : list str) : result loc :=
  match comps with
  | [] => Ok cur
  | name :: comps' =>
      if str_eqb name DOTDOT then walk st (tl cur) comps'
      else
        match node_at st (name :: cur) with
        | Some Dir => walk st (name :: cur) comps'
        | Some (File _) => Raise NotADirectoryError
        | None => Raise FileNotFoundError
        end
  end.

(** Where resolution of [p] starts. *)
Definition start_of (st : fs) (p : Path) : loc :=
  if is_empty (p_root p) then cwd st else [].

(** The directory that holds the last component of [p]. *)
Definition holder (st : fs) (p : Path) : result loc :=
  walk st (start_of st p) (p_parts (path_parent p)).

(** The surrogates U+D800 to U+DFFF, and among them the escapes U+DC80 to
    U+DCFF that stand for single bytes. *)
Definition is_surrogate (c : N) : bool := ((55296 <=? c) && (c <=? 57343))%N.
Definition is_escape (c : N) : bool := ((56448 <=? c) && (c <=? 56575))%N.

(** [s.encode("utf-8")] succeeds: strict UTF-8 encodes no surrogate. *)
Definition utf8_encodable (s : str) : bool :=
  forallb (fun c => negb (is_surrogate c)) s.

(** What every call that takes a path does with [str(p)] before it reaches
    the kernel: the string is encoded for the file system (UTF-8 with
    [surrogateescape]), which raises [UnicodeEncodeError] on a surrogate
    that is not an escape, and then has to hold no null, or [ValueError] is
    raised. *)
Definition path_error (p : Path) : option exn :=
  let s := path_str p in
  if existsb (fun c => is_surrogate c && negb (is_escape c)) s
  then Some UnicodeEncodeError
  else if existsb (N.eqb 0) s then Some ValueError
  else None.

(** [os.stat(p)], reduced to the node found *)
Definition stat (st : fs) (p : Path) : result node :=
  match path_error p with
  | Some e => Raise e
  | None =>
      match last (p_parts p) with
      | None => Ok Dir
      | Some name =>
          d ← holder st p;
          if str_eqb name DOTDOT then Ok Dir
          else match node_at st (name :: d) with
               | Some n => Ok n
               | None => Raise FileNotFoundError
               end
      end
  end.

(** The number of bytes of a content: the length of the UTF-8 encoding of
    its characters, and one byte for each escape. *)
Definition utf8_len (s : str) : nat :=
  list_sum (map (fun c : N =>
    if (c <? 128)%N then 1 else if (c <? 2048)%N then 2
    else if is_escape c then 1
    else if (c <? 65536)%N then 3 else 4) s).

(** Computations on the file system: the state is threaded through, and an
    exception leaves the state as it was when it was raised. *)
Definition M (A : Type) : Type := fs -> result A * fs.

#[global] Instance M_ret : MRet M := fun A a st => (Ok a, st).
#[global] Instance M_bind : MBind M := fun A B k m st =>
  match m st with
  | (Ok a, st') => k a st'
  | (Raise e, st') => (Raise e, st')
  end.

Definition query {A} (f : fs -> A) : M A := fun st => (Ok (f st), st).
Definition query_r {A} (f : fs -> result A) : M A := fun st => (f st, st).

(** [a and b] on conditions that read the file system *)
Definition and_then (a b : M bool) : M bool :=
  x ← a; if x : bool then b else mret false.

(** [p.exists()], [p.is_file()], [p.is_dir()], which return [False] on each
    error that [stat] raises here ([FileNotFoundError],
    [NotADirectoryError], [ValueError] and its subclass
    [UnicodeEncodeError]), and [p.stat().st_size] *)
Definition path_exists (st : fs) (p : Path) : bool :=
  match stat st p with Ok _ => true | Raise _ => false end.
Definition is_file (st : fs) (p : Path) : bool :=
  match stat st p with Ok (File _) => true | _ => false end.
Definition is_dir (st : fs) (p : Path) : bool :=
  match stat st p with Ok Dir => true | _ => false end.
Definition st_size (st : fs) (p : Path) : result nat :=
  n ← stat st p;
  match n with
  | File content => Ok (utf8_len content)
  | Dir => Ok 4096   (* the size of a directory is never read *)
  end.

Definition put (l : loc) (n : node) (ev : event) (st : fs) : fs :=
  mkFs (<[l := n]> (nodes st)) (cwd st) (oplog st ++ [ev]).

(** [os.mkdir(p)] *)
Definition os_mkdir (p : Path) : M unit := fun st =>
  match path_error p with
  | Some e => (Raise e, st)
  | None =>
      match last (p_parts p) with
      | None => (Raise FileExistsError, st)
      | Some name =>
          match holder st p with
          | Raise e => (Raise e, st)
          | Ok d =>
              if str_eqb name DOTDOT then (Raise FileExistsError, st)
              else match node_at st (name :: d) with
                   | Some _ => (Raise FileExistsError, st)
                   | None =>
                       (Ok tt, put (name :: d) Dir (Mkdir (name :: d)) st)
                   end
          end
      end
  end.

(** [Path.mkdir(parents=False, exist_ok=exist_ok)]: [FileNotFoundError] is
    raised again, any other [OSError] is raised again unless [exist_ok] is
    set and the path is a directory, and an exception that is not an
    [OSError] is not caught. *)
Definition mkdir_here (exist_ok : bool) (p : Path) : M unit := fun st =>
  match os_mkdir p st with
  | (Ok _, st') => (Ok tt, st')
  | (Raise FileNotFoundError, st') => (Raise FileNotFoundError, st')
  | (Raise e, st') =>
      if is_OSError e && (exist_ok && is_dir st' p) then (Ok tt, st')
      else (Raise e, st')
  end.

(** [Path.mkdir(parents=True, exist_ok=True)]; [n] is the number of parts of
    [p], and a path without parts is its own parent. *)
Fixpoint mkdir_parents (n : nat) (p : Path) : M unit := fun st =>
  match os_mkdir p st with
  | (Ok _, st') => (Ok tt, st')
  | (Raise FileNotFoundError, st') =>
      match n with
      | 0 => (Raise FileNotFoundError, st')
      | S n' =>
          match mkdir_parents n' (path_parent p) st' with
          | (Ok _, st'') => mkdir_here true p st''
          | (Raise e, st'') => (Raise e, st'')
          end
      end
  | (Raise e, st') =>
      if is_OSError e && is_dir st' p then (Ok tt, st') else (Raise e, st')
  end.

Definition mkdir_p (p : Path) : M unit :=
  mkdir_parents (length (p_parts p)) p.

(** [p.write_text(data, encoding="utf-8")], which is
    [with p.open("w") as f: f.write(data)]. Opening comes first: it raises
    on a path that cannot be given to the kernel, on a missing parent and on
    a directory, and otherwise creates the file or truncates it. Then [data]
    is encoded: when that fails, [UnicodeEncodeError] is raised and the file
    is closed empty; otherwise the file holds [data]. *)
Definition write_text (p : Path) (data : str) : M unit := fun st =>
  match path_error p with
  | Some e => (Raise e, st)
  | None =>
      match last (p_parts p) with
      | None => (Raise IsADirectoryError, st)
      | Some name =>
          match holder st p with
          | Raise e => (Raise e, st)
          | Ok d =>
              if str_eqb name DOTDOT then (Raise IsADirectoryError, st)
              else match node_at st (name :: d) with
                   | Some Dir => (Raise IsADirectoryError, st)
                   | _ =>
                       if utf8_encodable data
                       then (Ok tt, put (name :: d) (File data)
                                        (Write (name :: d) data) st)
                       else (Raise UnicodeEncodeError,
                             put (name :: d) (File [])
                                 (Write (name :: d) []) st)
                   end
          end
      end
  end.

(** The content of the file at [p], when [p] is a regular file: what the
    state holds there, not a call of the program. *)
Definition read_text (st : fs) (p : Path) : option str :=
  match stat st p with
  | Ok (File content) => Some content
  | _ => None
  end.

End Fs.
Import Fs.

(** ** Scaffold: [create_scaffold] *)

Module Scaffold.

(** An action of the report: [("mkdir", path)] or [("touch", path)]. *)
Abbreviation action := (str * str)%type.

(** The body of [for rel, is_dir in entries]; the value is the action list
    after the entry. *)
Definition scaffold_entry (root_abs : Path) (dry force : bool)
    (default_file_content : option str) (actions : list action) (e : entry)
  : M (list action) :=
  let '(rel, is_dir) := e in
  let target := path_div root_abs (Path_of rel) in
  if is_dir then
    let actions := actions ++ [(u "mkdir", path_str target)] in
    _ ← (if negb dry then mkdir_p target else mret tt);
    mret actions
  else
    _ ← (if negb dry then mkdir_p (path_parent target) else mret tt);
    let actions := actions ++ [(u "touch", path_str target)] in
    if negb dry then
      found ← query (fun st => path_exists st target);
      keep ←
        (if found : bool then
           empty_file ←
             and_then (mret force)
               (and_then (query (fun st => Fs.is_file st target))
                  (n ← query_r (fun st => st_size st target);
                   mret (n =? 0)));
           if empty_file : bool
           then mret false                     (* will overwrite empty file *)
           else
             any_file ←
               and_then (mret force)
                        (query (fun st => Fs.is_file st target));
             if any_file : bool
             then mret false                   (* overwrite anyway *)
             else mret true                    (* continue *)
         else mret false);
      if keep : bool then mret actions
      else
        _ ← write_text target (default [] default_file_content);
        mret actions
    else mret actions.

Fixpoint scaffold_loop (root_abs : Path) (dry force : bool)
    (default_file_content : option str) (actions : list action)
    (entries : list entry) : M (list action) :=
  match entries with
  | [] => mret actions
  | e :: entries' =>
      actions ← scaffold_entry root_abs dry force default_file_content
                  actions e;
      scaffold_loop root_abs dry force default_file_content actions entries'
  end.

(** [create_scaffold] *)
Definition create_scaffold (root : Path) (entries : list entry)
    (base_root : Path) (dry force : bool) (default_file_content : option str)
  : M (list action) :=
  let root_abs := path_div base_root root in
  let actions := [(u "mkdir", path_str root_abs)] in
  _ ← (if negb dry then mkdir_p root_abs else mret tt);
  scaffold_loop root_abs dry force default_file_content actions entries.

End Scaffold.
Import Scaffold.

(** ** LineFilter: [parse_tree_lines] *)

Module LineFilter.

(** The line boundaries of [str.splitlines]. *)
Definition is_linebreak (c : N) : bool :=
  ((10 <=? c) && (c <=? 13) || (28 <=? c) && (c <=? 30)
   || (c =? 133) || (c =? 8232) || (c =? 8233))%N.

Definition CR : N := 13%N.

(** [s.splitlines()]: a line ends at a boundary, a carriage return followed
    by a newline counts once, and no empty line is added after the last
    boundary. [cur] is the line being read, reversed; [after_cr] says that
    the previous character was a carriage return that ended a line. *)
Fixpoint splitlines_aux (after_cr : bool) (cur : str) (s : str) : list str :=
  match s with
  | [] => match cur with [] => [] | _ => [rev cur] end
  | c :: s' =>
      if after_cr && (c =? NL)%N then splitlines_aux false [] s'
      else if is_linebreak c
           then rev cur :: splitlines_aux (c =? CR)%N [] s'
           else splitlines_aux false (c :: cur) s'
  end.
Definition splitlines (s : str) : list str := splitlines_aux false [] s.

(** [parse_tree_lines] *)
Definition parse_tree_lines (block : str) : list str :=
  map rstrip (List.filter is_tree_line (splitlines block)).

End LineFilter.
Import LineFilter.

(** ** Cli: [load_source] and [main] *)

Module Cli.

(** The arguments after [parse_args], with the defaults of the parser:
    [stdin] false, [text] and [from_file] [None], [root] ["."],
    [default_file_content] empty. The strings are those of the command
    line: a byte of an argument that is not UTF-8 arrives as its escape, so
    they can hold the surrogates U+DC80 to U+DCFF, and they hold no other
    surrogate and no null. *)
Record Namespace : Type := mkArgs {
  arg_stdin : bool;
  arg_text : option str;
  arg_from_file : option str;
  arg_root : str;
  arg_dry_run : bool;
  arg_force : bool;
  arg_default_file_content : str
}.

(** How a call ends early: [SystemExit] with the text for the error stream,
    or an exception that is not caught. *)
Inductive stop : Type :=
| SystemExit (message : str)
| Uncaught (e : exn).

(** What reading in text mode does to the decoded text: a carriage return
    followed by a newline, and a carriage return alone, become a newline. *)
Fixpoint universal_newlines (s : str) : str :=
  match s with
  | [] => []
  | c :: s' =>
      if (c =? CR)%N then
        NL :: match s' with
              | d :: s'' =>
                  if (d =? NL)%N then universal_newlines s''
                  else universal_newlines s'
              | [] => []
              end
      else c :: universal_newlines s'
  end.

(** [Path(p).read_text(encoding="utf-8")], which is
    [with p.open("r") as f: f.read()]: opening raises on a path that cannot
    be given to the kernel, on a missing file and on a directory; the bytes
    are decoded, which raises [UnicodeDecodeError] when they are not UTF-8,
    that is, when the content holds an escape; and the line ends are
    translated. *)
Definition read_file (st : fs) (p : Path) : result str :=
  match path_error p with
  | Some e => Raise e
  | None =>
      match last (p_parts p) with
      | None => Raise IsADirectoryError
      | Some name =>
          d ← holder st p;
          if str_eqb name DOTDOT then Raise IsADirectoryError
          else match node_at st (name :: d) with
               | Some (File content) =>
                   if utf8_encodable content
                   then Ok (universal_newlines content)
                   else Raise UnicodeDecodeError
               | Some Dir => Raise IsADirectoryError
               | None => Raise FileNotFoundError
               end
      end
  end.

(** The truth value of an optional string: [None] and the empty string are
    false. *)
Definition truthy (o : option str) : bool :=
  match o with
  | Some (_ :: _) => true
  | _ => false
  end.

Definition PROVIDE : str := u "Provide --stdin, --text, or --from-file".

(** [load_source]; [stdin_text] is what [sys.stdin.read()] returns. *)
Definition load_source (args : Namespace) (stdin_text : str) (st : fs)
  : stop + str :=
  if arg_stdin args then inr stdin_text
  else if truthy (arg_text args) then inr (default [] (arg_text args))
  else if truthy (arg_from_file args) then
    match read_file st (Path_of (default [] (arg_from_file args))) with
    | Ok content => inr content
    | Raise e => inl (Uncaught e)
    end
  else inl (SystemExit PROVIDE).

(** [Path.resolve()] where there is no symbolic link: the path is made
    absolute from the working directory, and each [..] drops the component
    before it, the root being its own parent. *)
Definition resolve (st : fs) (p : Path) : Path :=
  let start := if is_empty (p_root p) then rev (cwd st) else [] in
  mkPath [SLASH]
    (fold_left (fun acc name =>
                  if str_eqb name DOTDOT then removelast acc
                  else acc ++ [name])
               (p_parts p) start).

(** The format [{a:6}] followed by two spaces and the path. *)
Definition format_action (a : action) : str :=
  fst a ++ repeat SP (6 - length (fst a)) ++ [SP; SP] ++ snd a.

Definition NO_ENTRIES : str :=
  u "No entries parsed; is your tree block correct?".

(** How [main] ends: normally, with the lines given to [print], or early.
    Whether the output stream can encode a line is a matter of its error
    handler, which the locale sets, and is not modelled. *)
Inductive outcome : Type :=
| Printed (lines : list str)
| Stopped (why : stop).

(** [main], from the line after [parse_args]. *)
Definition main (args : Namespace) (stdin_text : str) : fs -> outcome * fs :=
  fun st =>
  let base_root := resolve st (Path_of (arg_root args)) in
  match load_source args stdin_text st with
  | inl why => (Stopped why, st)
  | inr markdown =>
      let block := extract_tree_block markdown in
      let lines := parse_tree_lines block in
      match normalize_root_and_entries lines with
      | Raise e => (Stopped (Uncaught e), st)
      | Ok (root_dir, entries) =>
          if is_empty entries && bool_decide (root_dir = Path_of (u "."))
          then (Stopped (SystemExit NO_ENTRIES), st)
          else
            match create_scaffold root_dir entries base_root
                    (arg_dry_run args) (arg_force args)
                    (Some (arg_default_file_content args)) st with
            | (Ok actions, st') => (Printed (map format_action actions), st')
            | (Raise e, st') => (Stopped (Uncaught e), st')
            end
      end
  end.

End Cli.
Import Cli.

(** * Statements: inputs and specification-side definitions *)

(** ** Inputs for the parser and the extractor *)

Module Examples.

(** The tree of the end-to-end example:
    a root, a directory [a/] holding [b.txt], and a file [c.txt]. *)
Definition line_root : str := u "root/".
Definition line_a : str := [TEE; DASH; DASH; SP] ++ u "a/".
Definition line_b : str :=
  [VBAR; SP; SP; SP; ELBOW; DASH; DASH; SP] ++ u "b.txt".
Definition line_c : str := [ELBOW; DASH; DASH; SP] ++ u "c.txt".
Definition tree_lines : list str := [line_root; line_a; line_b; line_c].

(** A root and one indented directory drawn without connectors. *)
Definition plain_lines : list str := [u "root/"; u "  src/"].

(** A root line that holds connectors only. *)
Definition bare_connector_lines : list str := [[TEE; DASH; DASH]].

(** Two directories [a] and [b], each with an entry drawn by the same line
    text; only the second one has a child. *)
Definition twin_lines : list str :=
  [ u "root/";
    [TEE; DASH; DASH; SP] ++ u "a";
    [VBAR; SP; SP; SP; TEE; DASH; DASH; SP] ++ u "x";
    [TEE; DASH; DASH; SP] ++ u "b";
    [VBAR; SP; SP; SP; TEE; DASH; DASH; SP] ++ u "x";
    [VBAR; SP; SP; SP; VBAR; SP; SP; SP; ELBOW; DASH; DASH; SP] ++ u "z" ].

(** A root and one line whose name holds a separator. *)
Definition nested_name_lines : list str :=
  [ u "root/"; [TEE; DASH; DASH; SP] ++ u "a/b.txt" ].

(** Markdown with two fenced blocks: a shell command, then a shorter tree
    drawn with indentation only. *)
Definition two_blocks : str :=
  FENCE ++ [NL] ++ u "pip install foo" ++ [NL] ++ FENCE ++ [NL; NL]
  ++ FENCE ++ [NL] ++ u "root/" ++ [NL] ++ u "  a/" ++ [NL] ++ FENCE ++ [NL].

End Examples.
Import Examples.

(** ** The tree parser, as specified *)

Module ParserSpec.

(** Directory inference by lookahead as the specification words it, for the
    line at position [i]: among the lines strictly after position [i], the
    first one with a longer leading run promotes, the first one with a
    leading run that is not longer ends the scan. *)
Fixpoint spec_scan (indent : nat) (after : list str) : bool :=
  match after with
  | [] => false
  | l :: rest =>
      if indent <? indent_of l then true
      else if indent_of l <=? indent then false
      else spec_scan indent rest
  end.

Definition spec_is_dir_by_lookahead (lines : list str) (i : nat) : bool :=
  match lines !! i with
  | Some ln => spec_scan (indent_of ln) (skipn (i + 1) lines)
  | None => false
  end.

(** The name of the entry on a line, when the line has one. *)
Definition line_name (ln : str) : option str :=
  s ← entry_text ln; Some (strip (rstrip_chars [SLASH] s)).

(** The text before the last separator of a relative path. *)
Definition parent_prefix (rel : str) : str :=
  rev (tl (drop_while (fun c => negb (c =? SLASH)%N) (rev rel))).

(** Parents precede their children, as the specification words it. *)
Definition parents_precede (entries : list entry) : Prop :=
  forall i rel d,
    entries !! i = Some (rel, d) ->
    SLASH ∈ rel ->
    exists j, j < i /\ entries !! j = Some (parent_prefix rel, true).

(** Every prefix of the directory stack is the path of a directory entry
    emitted so far. *)
Definition stack_inv (st : pstate) : Prop :=
  forall k, 0 < k <= length (snd st) ->
    exists j, fst st !! j = Some (join [SLASH] (take k (snd st)), true).

(** An entry is the name of a line, alone or below an earlier directory
    entry. *)
Definition placed (lines : list str) (entries : list entry) (i : nat)
    (rel : str) : Prop :=
  exists ln name,
    ln ∈ tl lines /\ line_name ln = Some name /\
    (rel = name \/
     exists j parent,
       j < i /\ entries !! j = Some (parent, true) /\
       rel = parent ++ SLASH :: name).

Definition all_placed (lines : list str) (entries : list entry) : Prop :=
  forall i rel d,
    entries !! i = Some (rel, d) -> placed lines entries i rel.

End ParserSpec.
Import ParserSpec.

(** ** The block extractor, as specified *)

Module ExtractorSpec.

(** The selection as the specification words it: a block qualifies when it
    holds a tree connector or a path separator, forward or back slash. *)
Definition spec_looks_like_tree (block : str) : bool :=
  existsb (fun ch => contains block [ch]) TREE_CHARS
  || contains block [SLASH] || contains block [BACKSLASH].

Definition spec_extract_tree_block (markdown : str) : str :=
  match findall_fences 0 markdown with
  | [] => strip markdown
  | fences =>
      let fences := sorted_by_len_desc fences in
      match List.find spec_looks_like_tree fences with
      | Some block => strip block
      | None => strip (hd [] fences)
      end
  end.

End ExtractorSpec.
Import ExtractorSpec.

(** ** The scaffold builder, as specified *)

Module ScaffoldSpec.

(** The action that [create_scaffold] records for an entry. *)
Definition action_of (root_abs : Path) (e : entry) : action :=
  (if snd e then u "mkdir" else u "touch",
   path_str (path_div root_abs (Path_of (fst e)))).

(** The action list as a function of [root], [entries] and [base_root]. *)
Definition planned_actions (root : Path) (entries : list entry)
    (base_root : Path) : list action :=
  let root_abs := path_div base_root root in
  (u "mkdir", path_str root_abs) :: map (action_of root_abs) entries.

(** [st'] holds every node of [st], unchanged, and possibly more; the
    mutating calls made from [st] to [st'] wrote only at locations that hold
    nothing in [st]. *)
Definition extends (st st' : fs) : Prop :=
  cwd st = cwd st' /\ nodes st ⊆ nodes st'
  /\ exists evs,
       oplog st' = oplog st ++ evs
       /\ forall l content, Write l content ∈ evs -> nodes st !! l = None.

(** The lengths that Linux accepts, in bytes: 255 for a name and 4095 for
    the path given to a call. The file system model has no such limit, so a
    statement that a file gets made names this bound. *)
Definition within_limits (p : Path) : bool :=
  forallb (fun name => utf8_len name <=? 255) (p_parts p)
  && (utf8_len (path_str p) <=? 4095).

(** The write policy as the specification words it. *)
Definition write_policy_as_stated : Prop :=
  forall root_abs force dfc actions rel st r st',
    let target := path_div root_abs (Path_of rel) in
    scaffold_entry root_abs false force dfc actions (rel, false) st
    = (r, st') ->
    path_exists st target = false \/ force = true
    \/ read_text st target = Some [] ->
    read_text st' target = Some (default [] dfc).

(** Idempotence as the specification words it: two runs in sequence leave
    the nodes that one run leaves. *)
Definition idempotence_as_stated : Prop :=
  forall root entries base_root dfc st,
    let run := create_scaffold root entries base_root false false dfc in
    nodes (snd (run (snd (run st)))) = nodes (snd (run st)).

(** The dry-run guarantee as the specification words it. *)
Definition dry_run_as_stated : Prop :=
  forall root entries base_root force dfc st,
    exists acts st',
      create_scaffold root entries base_root false force dfc st
      = (Ok acts, st')
      /\ create_scaffold root entries base_root true force dfc st
         = (Ok acts, st).

(** The independence of the action list as the specification words it. *)
Definition actions_independent_as_stated : Prop :=
  forall root entries base_root dry1 force1 dfc1 st1 dry2 force2 dfc2 st2,
    fst (create_scaffold root entries base_root dry1 force1 dfc1 st1)
    = fst (create_scaffold root entries base_root dry2 force2 dfc2 st2).

End ScaffoldSpec.
Import ScaffoldSpec.

(** ** Inputs for the scaffold builder *)

Module ScaffoldExamples.

Definition out : Path := Path_of (u "/out").
Definition proj : Path := Path_of (u "root").

(** Only [/out] exists. *)
Definition fresh : fs := mkFs {[ [u "out"] := Dir ]} [] [].

(** [/out/root] exists as a regular file. *)
Definition blocked : fs :=
  mkFs (<[ [u "root"; u "out"] := File (u "x") ]> {[ [u "out"] := Dir ]})
       [] [].

(** [/out/root/notes.txt] exists and is empty. *)
Definition with_empty_notes : fs :=
  mkFs (<[ [u "notes.txt"; u "root"; u "out"] := File [] ]>
          (<[ [u "root"; u "out"] := Dir ]> {[ [u "out"] := Dir ]}))
       [] [].

(** [/out/root/notes.txt] exists and holds a text. *)
Definition with_notes : fs :=
  mkFs (<[ [u "notes.txt"; u "root"; u "out"] := File (u "keep") ]>
          (<[ [u "root"; u "out"] := Dir ]> {[ [u "out"] := Dir ]}))
       [] [].

(** The entries of the end-to-end example. *)
Definition tree_entries : list entry :=
  [(u "a", true); (u "a/b.txt", false); (u "c.txt", false)].

(** An entry for the existing notes, then one for a new file. *)
Definition notes_then_new : list entry :=
  [(u "notes.txt", false); (u "new.txt", false)].

(** A file entry followed by an entry below it. *)
Definition file_as_parent : list entry :=
  [(u "a", false); (u "a/b.txt", false)].

(** Two file entries. *)
Definition two_files : list entry :=
  [(u "a.txt", false); (u "b.txt", false)].

(** The text that the command line gives for an argument of the one byte
    0xFF: the escape U+DCFF, which UTF-8 does not encode. *)
Definition byte_ff : str := [56575%N].

End ScaffoldExamples.
Import ScaffoldExamples.

(** ** Further statements about the parser, the extractor and the builder *)

Module Facts.

(** The line has an entry. *)
Definition has_name (ln : str) : bool :=
  match entry_text ln with Some _ => true | None => false end.

(** The line has an entry and no connector among the characters that
    [tree_depth] counts. *)
Definition unconnected (ln : str) : bool :=
  has_name ln && (tree_depth_of ln (indent_of ln) =? 0).

(** What is left of the root line before its last token is taken. *)
Definition root_core (first : str) : str :=
  strip (strip_chars (TREE_CHARS ++ [SP]) (strip first)).

(** How an entry relates to the line it comes from, in the sequence
    [lines]. *)
Definition entry_of_line (lines : list str) (ln : str) (e : entry) : Prop :=
  exists s ancestors,
    entry_text ln = Some s
    /\ fst e = join [SLASH] (ancestors ++ [strip (rstrip_chars [SLASH] s)])
    /\ length ancestors < tree_depth_of ln (indent_of ln)
    /\ (endswith s [SLASH] = true -> snd e = true)
    /\ (endswith s [SLASH] = false ->
        infer_by_lookahead lines ln (indent_of ln) = Ok (snd e)).

(** A name that the root extraction leaves as it is: not empty, not the dot,
    without whitespace, tree character or separator. *)
Definition plain_name (name : str) : bool :=
  negb (is_empty name) && negb (str_eqb name (u "."))
  && forallb (fun c => negb (isspace c) && negb (mem c TREE_CHARS)
                       && negb (c =? SLASH)%N) name.

(** The characters that can make a line a tree line. *)
Definition MARKERS : str := [TEE; ELBOW; VBAR; DASH; SLASH; BACKSLASH].

(** From [st] to [st'] every location keeps its node, or gets a directory
    where there was nothing, or gets a file holding [data] where there was no
    directory. *)
Definition evolves (data : str) (st st' : fs) : Prop :=
  cwd st = cwd st'
  /\ forall l,
       nodes st' !! l = nodes st !! l
       \/ (nodes st !! l = None /\ nodes st' !! l = Some Dir)
       \/ (nodes st !! l <> Some Dir /\ nodes st' !! l = Some (File data)).

(** What a call that ended with [r] can have left in a file it wrote, when
    the text to write was [data]: [data] itself when UTF-8 encodes it;
    otherwise nothing was written if the call returned, and the file is empty
    if it raised. *)
Definition content_left {A} (data : str) (r : result A) (d : str) : Prop :=
  if utf8_encodable data then d = data
  else match r with Ok _ => True | Raise _ => d = [] end.

(** What holds for an entry after a run that was not dry: a directory entry
    is a directory; the target of a file entry exists, below a directory,
    and under [force] it is a directory or holds [data]. *)
Definition entry_done (root_abs : Path) (force : bool) (data : str)
    (st : fs) (e : entry) : Prop :=
  let target := path_div root_abs (Path_of (fst e)) in
  if snd e then is_dir st target = true
  else path_exists st target = true
       /\ is_dir st (path_parent target) = true
       /\ (force = true ->
           is_dir st target = true \/ read_text st target = Some data).

(** A text file with the line ends of Windows: a caption that holds a
    slash, then a fenced tree. *)
Definition crlf_text : str :=
  u "layout of my/app:" ++ [CR; NL] ++ FENCE ++ [CR; NL]
  ++ u "root/" ++ [CR; NL] ++ [TEE; DASH; DASH; SP] ++ u "a" ++ [CR; NL]
  ++ FENCE ++ [CR; NL].

(** Only [/out] and the file [/out/tree.md], which holds [crlf_text]. *)
Definition with_tree_file : fs :=
  mkFs (<[ [u "tree.md"; u "out"] := File crlf_text ]> {[ [u "out"] := Dir ]})
       [] [].

(** A tree block of three lines. *)
Definition small_block : str :=
  u "root/" ++ [NL] ++ [TEE; DASH; DASH; SP] ++ u "a" ++ [NL]
  ++ [VBAR; SP; SP; SP; ELBOW; DASH; DASH; SP] ++ u "b.txt" ++ [NL].

End Facts.
Import Facts.

(** * Properties *)

(** ** The tree parser *)

(** C1. On the four lines of the end-to-end example the parser returns the
    root [root] and the entries [(a, dir)], [(a/b.txt, file)],
    [(c.txt, file)], in that order; when the line of [b.txt] is processed the
    directory stack is [[a]], and it still is afterwards. *)
Theorem C1_example_tree_parses :
  normalize_root_and_entries tree_lines
  = Ok (Path_of (u "root"),
        [(u "a", true); (u "a/b.txt", false); (u "c.txt", false)])
  /\ path_str (Path_of (u "root")) = u "root"
  /\ parse_loop tree_lines ([], []) [line_a] = Ok ([(u "a", true)], [u "a"])
  /\ pop_to_depth 1 [u "a"] (tree_depth_of line_b (indent_of line_b))
      = Ok [u "a"]
  /\ process_line tree_lines ([(u "a", true)], [u "a"]) line_b
      = Ok ([(u "a", true); (u "a/b.txt", false)], [u "a"]).
Proof. repeat split; vm_compute; reflexivity. Qed.

(** C2. The parser raises on well-formed input: a line after the root that
    has an entry but no connector empties the directory stack and pops once
    more, and a root line of connectors only has no last token. Both inputs
    pass the line filter. On the empty sequence the parser returns the
    current-directory marker and no entry. *)
Theorem C2_parser_raises_IndexError :
  forallb is_tree_line plain_lines = true
  /\ normalize_root_and_entries plain_lines = Raise IndexError
  /\ forallb is_tree_line bare_connector_lines = true
  /\ normalize_root_and_entries bare_connector_lines = Raise IndexError
  /\ normalize_root_and_entries [] = Ok (Path_of (u "."), [])
  /\ path_str (Path_of (u ".")) = u ".".
Proof. repeat split; vm_compute; reflexivity. Qed.

(** C3. In [twin_lines] the line at position 4 has the name [x], no trailing
    separator, and is followed by a line with a longer leading run, so the
    scan from position 4 promotes it; the parser scans from position 2, the
    first line with the same text, and leaves it a file, which also puts
    [z] beside it instead of below it. *)
Theorem C3_lookahead_scans_from_first_equal_line :
  exists ln,
    twin_lines !! 4 = Some ln
    /\ entry_text ln = Some (u "x")
    /\ spec_is_dir_by_lookahead twin_lines 4 = true
    /\ index twin_lines ln = Ok 2
    /\ infer_by_lookahead twin_lines ln (indent_of ln) = Ok false
    /\ normalize_root_and_entries twin_lines
       = Ok (Path_of (u "root"),
             [(u "a", true); (u "a/x", false); (u "b", true);
              (u "b/x", false); (u "b/z", false)]).
Proof. eexists; repeat split; vm_compute; reflexivity. Qed.

(** *** Where the lookahead is right *)

Lemma str_eqb_true (a b : str) : str_eqb a b = true <-> a = b.
Proof. unfold str_eqb. apply bool_decide_eq_true. Qed.

Lemma str_eqb_false (a b : str) : str_eqb a b = false <-> a <> b.
Proof. unfold str_eqb. apply bool_decide_eq_false. Qed.

Lemma index_first_occurrence (lines : list str) (i : nat) (ln : str) :
  NoDup lines -> lines !! i = Some ln -> index lines ln = Ok i.
Proof.
  intros Hnd. revert i. induction Hnd as [|y ys Hy Hnd IH]; intros i Hi.
  - discriminate.
  - destruct i as [|i]; simpl in *.
    + injection Hi as ->.
      replace (str_eqb ln ln) with true; [reflexivity|].
      symmetry. now apply str_eqb_true.
    + assert (Hne : y <> ln).
      { intros ->. apply Hy. eapply list_elem_of_lookup_2. exact Hi. }
      apply str_eqb_false in Hne. rewrite Hne.
      rewrite (IH _ Hi). reflexivity.
Qed.

Lemma lookahead_spec_scan (indent : nat) (after : list str) :
  Forall (fun l => is_empty (strip l) = false) after ->
  lookahead indent after = spec_scan indent after.
Proof.
  intros H. destruct H as [|l rest Hl _]; simpl; [reflexivity|].
  rewrite Hl. destruct (indent <? indent_of l) eqn:E; [reflexivity|].
  apply Nat.ltb_ge in E. apply Nat.leb_le in E. now rewrite E.
Qed.

(** When no two lines have the same text and no line is blank, the parser's
    lookahead for the line at position [i] is the scan from position [i]. *)
Lemma lookahead_from_position (lines : list str) (i : nat) (ln : str) :
  NoDup lines ->
  Forall (fun l => is_empty (strip l) = false) lines ->
  lines !! i = Some ln ->
  infer_by_lookahead lines ln (indent_of ln)
  = Ok (spec_is_dir_by_lookahead lines i).
Proof.
  intros Hnd Hnb Hi. unfold infer_by_lookahead, spec_is_dir_by_lookahead.
  rewrite (index_first_occurrence _ _ _ Hnd Hi), Hi. simpl.
  destruct (i + 1 <? length lines) eqn:E.
  - f_equal. apply lookahead_spec_scan. now apply Forall_drop.
  - apply Nat.ltb_ge in E. rewrite drop_ge by lia. reflexivity.
Qed.

(** *** Where the parser returns *)

Lemma index_of_member (lines : list str) (ln : str) :
  ln ∈ lines -> exists i, index lines ln = Ok i.
Proof.
  induction lines as [|y ys IH]; intros H; [inversion H|].
  simpl. destruct (str_eqb y ln) eqn:E; [eauto|].
  apply str_eqb_false in E. apply elem_of_cons in H as [->|H]; [congruence|].
  destruct (IH H) as [i ->]. simpl. eauto.
Qed.

Lemma pop_to_depth_returns (n : nat) (stack : list str) (depth : nat) :
  0 < depth -> n = length stack ->
  exists stack', pop_to_depth n stack depth = Ok stack'.
Proof.
  intros Hd. revert stack. induction n as [|n IH]; intros stack Hn; simpl.
  - destruct (depth <=? length stack) eqn:E; [|eauto].
    apply Nat.leb_le in E. lia.
  - destruct (depth <=? length stack); [|eauto].
    apply IH. destruct stack as [|x stack]; [discriminate|].
    rewrite removelast_firstn_len, length_take. simpl in *. lia.
Qed.

Lemma process_line_returns (lines : list str) (st : pstate) (ln : str) :
  ln ∈ lines ->
  entry_text ln = None \/ 0 < tree_depth_of ln (indent_of ln) ->
  exists st', process_line lines st ln = Ok st'.
Proof.
  intros Hin Hcase. destruct st as [entries stack]. unfold process_line.
  destruct (entry_text ln) as [s|]; [|eauto].
  destruct Hcase as [?|Hd]; [discriminate|].
  assert (Hdir : exists b,
            (if negb (endswith s [SLASH] || endswith s os_sep)
               return result bool
             then infer_by_lookahead lines ln (indent_of ln)
             else Ok true) = Ok b).
  { destruct (negb _); [|eauto]. unfold infer_by_lookahead.
    destruct (index_of_member _ _ Hin) as [i ->]. simpl.
    destruct (i + 1 <? length lines); eauto. }
  destruct Hdir as [b ->]. simpl.
  destruct (pop_to_depth_returns (length stack) stack _ Hd eq_refl)
    as [stack' ->].
  simpl. eauto.
Qed.

(** The parser returns when the root line has a token and every later line
    with an entry has a connector near its start. *)
Lemma parser_returns_on_connected_lines (first : str) (rest : list str)
    (root : Path) :
  root_of_line first = Ok root ->
  (forall ln, ln ∈ rest ->
     entry_text ln = None \/ 0 < tree_depth_of ln (indent_of ln)) ->
  exists entries,
    normalize_root_and_entries (first :: rest) = Ok (root, entries).
Proof.
  intros Hroot Hlines. simpl. rewrite Hroot. simpl.
  assert (Hloop : forall todo st,
            (forall ln, ln ∈ todo -> ln ∈ rest) ->
            exists st', parse_loop (first :: rest) st todo = Ok st').
  { induction todo as [|ln todo IH]; intros st Hsub; simpl; [eauto|].
    destruct (process_line_returns (first :: rest) st ln) as [st1 ->].
    - right. apply Hsub. left.
    - apply Hlines, Hsub. left.
    - simpl. apply IH. intros l Hl. apply Hsub. now right. }
  destruct (Hloop rest ([], [])) as [st' ->]; [auto|].
  simpl. eauto.
Qed.

(** *** Parents precede their children *)

Lemma pop_to_depth_take (n : nat) (stack : list str) (depth : nat)
    (stack' : list str) :
  pop_to_depth n stack depth = Ok stack' ->
  exists m, stack' = take m stack.
Proof.
  revert stack. induction n as [|n IH]; intros stack; simpl.
  - destruct (depth <=? length stack); [discriminate|].
    intros [= <-]. exists (length stack). now rewrite firstn_all.
  - destruct (depth <=? length stack).
    + intros H. destruct (IH _ H) as [m ->].
      rewrite removelast_firstn_len, take_take. eauto.
    + intros [= <-]. exists (length stack). now rewrite firstn_all.
Qed.

Lemma join_snoc (sep : str) (parts : list str) (x : str) :
  parts <> [] -> join sep (parts ++ [x]) = join sep parts ++ sep ++ x.
Proof.
  induction parts as [|p parts IH]; [congruence|]. intros _.
  destruct parts as [|q parts]; [reflexivity|].
  change (join sep ((p :: q :: parts) ++ [x]))
    with (p ++ sep ++ join sep ((q :: parts) ++ [x])).
  rewrite IH by discriminate.
  change (join sep (p :: q :: parts)) with (p ++ sep ++ join sep (q :: parts)).
  now rewrite <- !app_assoc.
Qed.

Lemma drop_while_no_sep (name rest : str) :
  SLASH ∉ name ->
  drop_while (fun c => negb (c =? SLASH)%N) (name ++ SLASH :: rest)
  = SLASH :: rest.
Proof.
  induction name as [|c name IH]; intros Hn; simpl.
  - reflexivity.
  - destruct (c =? SLASH)%N eqn:E.
    + apply N.eqb_eq in E. subst c. exfalso. apply Hn. constructor.
    + simpl. apply IH. intros H. apply Hn. now constructor.
Qed.

Lemma parent_prefix_app (parent name : str) :
  SLASH ∉ name -> parent_prefix (parent ++ SLASH :: name) = parent.
Proof.
  intros Hn. unfold parent_prefix.
  rewrite rev_app_distr. simpl. rewrite <- app_assoc. simpl.
  rewrite drop_while_no_sep.
  - simpl. apply rev_involutive.
  - intros H. apply Hn. apply list_elem_of_In. apply in_rev.
    now apply list_elem_of_In.
Qed.

Section ParentsPrecede.

Variable lines : list str.

#[local] Abbreviation placed := (ParserSpec.placed lines).
#[local] Abbreviation all_placed := (ParserSpec.all_placed lines).


Lemma placed_app (entries more : list entry) (i : nat) (rel : str) :
  placed entries i rel -> placed (entries ++ more) i rel.
Proof.
  intros (ln & name & Hin & Hname & [H | (j & parent & Hj & He & Hr)]);
    exists ln, name; split; [assumption| |assumption|]; split; auto.
  right. exists j, parent. split; [assumption|]. split; [|assumption].
  now apply lookup_app_l_Some.
Qed.

Lemma process_line_inv (st st' : pstate) (ln : str) :
  ln ∈ tl lines ->
  process_line lines st ln = Ok st' ->
  stack_inv st -> all_placed (fst st) ->
  stack_inv st' /\ all_placed (fst st').
Proof.
  intros Hin Hstep Hinv Hpl. destruct st as [entries stack].
  unfold process_line in Hstep.
  destruct (entry_text ln) as [s|] eqn:Hs; [|injection Hstep as <-; auto].
  set (name := strip (rstrip_chars [SLASH] s)) in *.
  assert (Hname : line_name ln = Some name).
  { unfold line_name. rewrite Hs. reflexivity. }
  match type of Hstep with
  | mbind _ ?r = _ => destruct r as [is_dir|] eqn:Hdir; [|discriminate]
  end.
  simpl in Hstep.
  match type of Hstep with
  | mbind _ ?r = _ => destruct r as [stack1|] eqn:Hpop; [|discriminate]
  end.
  simpl in Hstep. injection Hstep as <-.
  apply pop_to_depth_take in Hpop as [m ->].
  set (stack1 := take m stack) in *.
  set (rel := if is_empty stack1 then name
              else join [SLASH] (stack1 ++ [name])).
  assert (Hinv1 : forall k, 0 < k <= length stack1 ->
            exists j, entries !! j = Some (join [SLASH] (take k stack1), true)).
  { intros k Hk. unfold stack1 in *. rewrite take_take.
    rewrite length_take in Hk.
    replace (k `min` m) with k by lia. apply Hinv. simpl. lia. }
  assert (Hrel : placed entries (length entries) rel).
  { exists ln, name. split; [assumption|]. split; [assumption|].
    unfold rel. destruct stack1 as [|p ps] eqn:E; [left; reflexivity|].
    right. destruct (Hinv1 (length (p :: ps))) as [j Hj]; [simpl; lia|].
    rewrite firstn_all in Hj.
    exists j, (join [SLASH] (p :: ps)). split.
    - eapply lookup_lt_Some. exact Hj.
    - split; [assumption|]. simpl is_empty. cbv iota.
      rewrite join_snoc by discriminate. reflexivity. }
  split.
  - intros k Hk. simpl in *.
    destruct is_dir.
    + rewrite length_app in Hk. simpl in Hk.
      destruct (decide (k <= length stack1)) as [Hle|Hgt].
      * rewrite take_app_le by assumption.
        destruct (Hinv1 k) as [j Hj]; [lia|].
        exists j. now apply lookup_app_l_Some.
      * replace k with (length (stack1 ++ [name]))
          by (rewrite length_app; simpl; lia).
        rewrite firstn_all. exists (length entries).
        rewrite lookup_app_r by lia. rewrite Nat.sub_diag. simpl.
        unfold rel. destruct stack1; reflexivity.
    + destruct (Hinv1 k) as [j Hj]; [lia|].
      exists j. now apply lookup_app_l_Some.
  - intros i r d Hi. simpl in *.
    destruct (decide (i < length entries)) as [Hlt|Hge].
    + rewrite lookup_app_l in Hi by assumption.
      apply placed_app. eapply Hpl. exact Hi.
    + rewrite lookup_app_r in Hi by lia.
      destruct (i - length entries) as [|?] eqn:E; [|discriminate].
      simpl in Hi. injection Hi as <- <-.
      replace i with (length entries) by lia.
      apply placed_app. exact Hrel.
Qed.

Lemma parse_loop_inv (todo : list str) (st st' : pstate) :
  (forall ln, ln ∈ todo -> ln ∈ tl lines) ->
  parse_loop lines st todo = Ok st' ->
  stack_inv st -> all_placed (fst st) ->
  stack_inv st' /\ all_placed (fst st').
Proof.
  revert st. induction todo as [|ln todo IH]; intros st Hsub Hrun Hinv Hpl.
  - simpl in Hrun. injection Hrun as <-. auto.
  - simpl in Hrun.
    destruct (process_line lines st ln) as [st1|] eqn:Hstep; [|discriminate].
    simpl in Hrun.
    destruct (process_line_inv st st1 ln) as [Hinv1 Hpl1]; auto.
    { apply Hsub. constructor. }
    apply (IH st1); auto.
    intros l Hl. apply Hsub. now constructor.
Qed.

End ParentsPrecede.




(** ** The block extractor *)


Lemma findall_no_fence (s : str) (skip : nat) :
  contains s FENCE = false -> findall_fences skip s = [].
Proof.
  revert skip. induction s as [|c s IH]; intros skip H; [reflexivity|].
  change (contains (c :: s) FENCE)
    with (startswith (c :: s) FENCE || contains s FENCE) in H.
  apply orb_false_elim in H as [Hst Hs].
  change (findall_fences skip (c :: s)) with
    (match skip with
     | S k => findall_fences k s
     | 0 => match match_fence (c :: s) with
            | Some (g, rest) =>
                g :: findall_fences (length (c :: s) - length rest - 1) s
            | None => findall_fences 0 s
            end
     end).
  destruct skip as [|k]; [|now apply IH].
  unfold match_fence. rewrite Hst. now apply IH.
Qed.

(** Without a fence in the input, the block is the trimmed input. *)
Lemma extract_without_fence (markdown : str) :
  contains markdown FENCE = false ->
  extract_tree_block markdown = strip markdown.
Proof.
  intros H. unfold extract_tree_block. now rewrite findall_no_fence.
Qed.

(** C5. The input [two_blocks] has two fenced blocks: a shell command of 16
    characters and a tree of 11 characters drawn with indentation only. The
    tree holds a forward slash, so it is the first qualifying block in the
    specification's words; the code tests for a space followed by a slash,
    finds no qualifying block, and returns the longest one. *)
Theorem C5_slash_alone_does_not_qualify :
  findall_fences 0 two_blocks
  = [u "pip install foo" ++ [NL]; u "root/" ++ [NL] ++ u "  a/" ++ [NL]]
  /\ contains (u "root/" ++ [NL] ++ u "  a/" ++ [NL]) [SLASH] = true
  /\ looks_like_tree (u "root/" ++ [NL] ++ u "  a/" ++ [NL]) = false
  /\ extract_tree_block two_blocks = u "pip install foo"
  /\ spec_extract_tree_block two_blocks = u "root/" ++ [NL] ++ u "  a/".
Proof. repeat split; vm_compute; reflexivity. Qed.

(** ** The scaffold builder *)


(** *** Path resolution and growth of the file system *)

Lemma extends_refl (st : fs) : extends st st.
Proof.
  split; [reflexivity|]. split; [reflexivity|]. exists []. split.
  - now rewrite app_nil_r.
  - intros l content H. inversion H.
Qed.

Lemma extends_trans (a b c : fs) : extends a b -> extends b c -> extends a c.
Proof.
  intros (H1 & H2 & evs1 & L1 & W1) (H3 & H4 & evs2 & L2 & W2).
  split; [congruence|]. split; [now transitivity (nodes b)|].
  exists (evs1 ++ evs2). split.
  - now rewrite L2, L1, app_assoc.
  - intros l content H. apply elem_of_app in H as [H|H]; [eauto|].
    eapply lookup_weaken_None; [|exact H2]. eauto.
Qed.

Lemma node_at_extends (st st' : fs) (l : loc) (n : node) :
  extends st st' -> node_at st l = Some n -> node_at st' l = Some n.
Proof.
  intros (_ & Hsub & _). destruct l as [|x l]; unfold node_at; [auto|].
  intros H. eapply lookup_weaken; eassumption.
Qed.

Lemma walk_extends (st st' : fs) (comps : list str) (cur d : loc) :
  extends st st' -> walk st cur comps = Ok d -> walk st' cur comps = Ok d.
Proof.
  intros Hext. revert cur. induction comps as [|name comps IH]; intros cur;
    simpl; [auto|].
  destruct (str_eqb name DOTDOT); [apply IH|].
  destruct (node_at st (name :: cur)) as [[|c]|] eqn:E; try discriminate.
  rewrite (node_at_extends _ _ _ _ Hext E). apply IH.
Qed.

Lemma start_of_extends (st st' : fs) (p : Path) :
  extends st st' -> start_of st p = start_of st' p.
Proof. intros (Hc & _). unfold start_of. now rewrite Hc. Qed.

Lemma holder_extends (st st' : fs) (p : Path) (d : loc) :
  extends st st' -> holder st p = Ok d -> holder st' p = Ok d.
Proof.
  intros Hext. unfold holder. rewrite <- (start_of_extends _ _ _ Hext).
  now apply walk_extends.
Qed.

Lemma stat_extends (st st' : fs) (p : Path) (n : node) :
  extends st st' -> stat st p = Ok n -> stat st' p = Ok n.
Proof.
  intros Hext. unfold stat. destruct (path_error p); [discriminate|].
  destruct (last (p_parts p)) as [name|]; [|auto].
  destruct (holder st p) as [d|] eqn:Hd; [|discriminate].
  rewrite (holder_extends _ _ _ _ Hext Hd). simpl.
  destruct (str_eqb name DOTDOT); [auto|].
  destruct (node_at st (name :: d)) as [m|] eqn:E; [|discriminate].
  now rewrite (node_at_extends _ _ _ _ Hext E).
Qed.

Lemma is_dir_extends (st st' : fs) (p : Path) :
  extends st st' -> is_dir st p = true -> is_dir st' p = true.
Proof.
  intros Hext. unfold is_dir.
  destruct (stat st p) as [[|c]|] eqn:E; try discriminate.
  now rewrite (stat_extends _ _ _ _ Hext E).
Qed.

Lemma path_exists_extends (st st' : fs) (p : Path) :
  extends st st' -> path_exists st p = true -> path_exists st' p = true.
Proof.
  intros Hext. unfold path_exists.
  destruct (stat st p) as [n|] eqn:E; [|discriminate].
  now rewrite (stat_extends _ _ _ _ Hext E).
Qed.

Lemma put_extends (st : fs) (l : loc) (n : node) (ev : event) :
  nodes st !! l = None ->
  (forall l' content, ev = Write l' content -> l' = l) ->
  extends st (put l n ev st).
Proof.
  intros H Hev. split; [reflexivity|]. split.
  - simpl. now apply insert_subseteq.
  - exists [ev]. split; [reflexivity|].
    intros l' content Hin. apply list_elem_of_singleton in Hin.
    symmetry in Hin. apply Hev in Hin. now subst.
Qed.

(** A successful walk only passes through directories, so it does not see a
    change at a location that is not a directory. *)
Lemma walk_put (st : fs) (l : loc) (n : node) (ev : event)
    (comps : list str) (cur d : loc) :
  node_at st l <> Some Dir ->
  walk st cur comps = Ok d -> walk (put l n ev st) cur comps = Ok d.
Proof.
  intros Hl. revert cur. induction comps as [|name comps IH]; intros cur;
    simpl; [auto|].
  destruct (str_eqb name DOTDOT); [apply IH|].
  destruct (node_at st (name :: cur)) as [[|c]|] eqn:E; try discriminate.
  assert (Hne : l <> name :: cur).
  { intros ->. apply Hl. exact E. }
  unfold node_at, put in *. simpl nodes.
  rewrite lookup_insert_ne by exact Hne. rewrite E. apply IH.
Qed.

Lemma holder_put (st : fs) (l : loc) (n : node) (ev : event) (p : Path)
    (d : loc) :
  node_at st l <> Some Dir ->
  holder st p = Ok d -> holder (put l n ev st) p = Ok d.
Proof. intros Hl. unfold holder, start_of. simpl. now apply walk_put. Qed.

(** *** The file system calls *)

Lemma os_mkdir_cases (p : Path) (st st' : fs) (r : result unit) :
  os_mkdir p st = (r, st') ->
  (exists name d,
     r = Ok tt /\ last (p_parts p) = Some name /\ holder st p = Ok d /\
     str_eqb name DOTDOT = false /\ node_at st (name :: d) = None /\
     path_error p = None /\
     st' = put (name :: d) Dir (Mkdir (name :: d)) st)
  \/ (exists e, r = Raise e /\ st' = st).
Proof.
  unfold os_mkdir. intros H.
  destruct (path_error p) as [e0|] eqn:Hpe.
  { right. injection H as <- <-. eauto. }
  destruct (last (p_parts p)) as [name|] eqn:Hl.
  2:{ right. injection H as <- <-. eauto. }
  destruct (holder st p) as [d|e] eqn:Hd.
  2:{ right. injection H as <- <-. eauto. }
  destruct (str_eqb name DOTDOT) eqn:Hdd.
  { right. injection H as <- <-. eauto. }
  destruct (node_at st (name :: d)) as [n|] eqn:Hn.
  { right. injection H as <- <-. eauto. }
  left. injection H as <- <-. exists name, d. repeat split; auto.
Qed.

Lemma stat_after_put (st : fs) (p : Path) (name : str) (d : loc) (n : node)
    (ev : event) :
  path_error p = None ->
  last (p_parts p) = Some name -> holder st p = Ok d ->
  str_eqb name DOTDOT = false -> node_at st (name :: d) <> Some Dir ->
  stat (put (name :: d) n ev st) p = Ok n.
Proof.
  intros Hpe Hl Hd Hdd Hn. unfold stat. rewrite Hpe, Hl.
  rewrite (holder_put _ _ _ _ _ _ Hn Hd). simpl. rewrite Hdd.
  unfold node_at, put. simpl. now rewrite lookup_insert_eq.
Qed.

Lemma os_mkdir_extends (p : Path) (st st' : fs) (r : result unit) :
  os_mkdir p st = (r, st') -> extends st st'.
Proof.
  intros H. apply os_mkdir_cases in H
    as [(name & d & _ & _ & _ & _ & Hn & _ & ->) | (e & _ & ->)].
  - apply put_extends; [exact Hn|discriminate].
  - apply extends_refl.
Qed.

Lemma os_mkdir_ok_is_dir (p : Path) (st st' : fs) (x : unit) :
  os_mkdir p st = (Ok x, st') -> is_dir st' p = true.
Proof.
  intros H. apply os_mkdir_cases in H
    as [(name & d & _ & Hl & Hd & Hdd & Hn & Hpe & ->) | (e & [=] & _)].
  unfold is_dir. rewrite (stat_after_put _ _ name d); auto.
  rewrite Hn. discriminate.
Qed.

Lemma os_mkdir_existing (p : Path) (st : fs) :
  path_exists st p = true -> os_mkdir p st = (Raise FileExistsError, st).
Proof.
  unfold path_exists, stat, os_mkdir.
  destruct (path_error p); [discriminate|].
  destruct (last (p_parts p)) as [name|]; [|reflexivity].
  destruct (holder st p) as [d|]; [|discriminate]. simpl.
  destruct (str_eqb name DOTDOT); [reflexivity|].
  destruct (node_at st (name :: d)); [reflexivity|discriminate].
Qed.

Lemma is_dir_exists (st : fs) (p : Path) :
  is_dir st p = true -> path_exists st p = true.
Proof. unfold is_dir, path_exists. destruct (stat st p); auto. Qed.

Lemma mkdir_here_extends (ok : bool) (p : Path) (st st' : fs)
    (r : result unit) :
  mkdir_here ok p st = (r, st') -> extends st st'.
Proof.
  unfold mkdir_here. destruct (os_mkdir p st) as [r0 st0] eqn:E.
  apply os_mkdir_extends in E. intros H.
  assert (st' = st0) as ->; [|exact E].
  destruct r0 as [|[]]; simpl in H; try (injection H as _ <-; reflexivity);
    destruct (ok && is_dir st0 p); injection H as _ <-; reflexivity.
Qed.

Lemma mkdir_here_ok_is_dir (ok : bool) (p : Path) (st st' : fs) (x : unit) :
  mkdir_here ok p st = (Ok x, st') -> is_dir st' p = true.
Proof.
  unfold mkdir_here. destruct (os_mkdir p st) as [r0 st0] eqn:E. intros H.
  destruct r0 as [y|e].
  - injection H as _ <-. eapply os_mkdir_ok_is_dir. exact E.
  - destruct e; simpl in H; try discriminate;
      destruct (is_dir st0 p) eqn:Hd; rewrite ?andb_true_r, ?andb_false_r in H;
      destruct ok; try discriminate; injection H as _ <-; exact Hd.
Qed.

Lemma mkdir_parents_extends (n : nat) (p : Path) (st st' : fs)
    (r : result unit) :
  mkdir_parents n p st = (r, st') -> extends st st'.
Proof.
  revert p st st' r. induction n as [|n IH]; intros p st st' r; simpl;
    destruct (os_mkdir p st) as [r0 st0] eqn:E;
    apply os_mkdir_extends in E; intros H.
  - assert (st' = st0) as ->; [|exact E].
    destruct r0 as [|[]]; simpl in H; try (injection H as _ <-; reflexivity);
      destruct (is_dir st0 p); injection H as _ <-; reflexivity.
  - destruct r0 as [y|e].
    { injection H as _ <-. exact E. }
    destruct e; simpl in H;
      try (injection H as _ <-; exact E);
      try (destruct (is_dir st0 p); injection H as _ <-; exact E).
    destruct (mkdir_parents n (path_parent p) st0) as [r1 st1] eqn:E1.
    apply IH in E1. destruct r1 as [y|e].
    + apply mkdir_here_extends in H.
      eapply extends_trans; [exact E|]. eapply extends_trans; eauto.
    + injection H as _ <-. eapply extends_trans; eauto.
Qed.

Lemma mkdir_parents_ok_is_dir (n : nat) (p : Path) (st st' : fs) (x : unit) :
  mkdir_parents n p st = (Ok x, st') -> is_dir st' p = true.
Proof.
  destruct n as [|n]; simpl;
    destruct (os_mkdir p st) as [r0 st0] eqn:E; intros H.
  - destruct r0 as [y|e].
    + injection H as _ <-. eapply os_mkdir_ok_is_dir. exact E.
    + destruct e; simpl in H; try discriminate;
        destruct (is_dir st0 p) eqn:Hd; try discriminate;
        injection H as _ <-; exact Hd.
  - destruct r0 as [y|e].
    + injection H as _ <-. eapply os_mkdir_ok_is_dir. exact E.
    + destruct e; simpl in H; try discriminate;
        try (destruct (is_dir st0 p) eqn:Hd; try discriminate;
             injection H as _ <-; exact Hd).
      destruct (mkdir_parents n (path_parent p) st0) as [[y|e] st1];
        [|discriminate].
      eapply mkdir_here_ok_is_dir. exact H.
Qed.

(** On an existing directory, [mkdir(parents=True, exist_ok=True)] does
    nothing. *)
Lemma mkdir_parents_existing (n : nat) (p : Path) (st : fs) :
  is_dir st p = true -> mkdir_parents n p st = (Ok tt, st).
Proof.
  intros Hd. pose proof (os_mkdir_existing _ _ (is_dir_exists _ _ Hd)) as E.
  destruct n; simpl; rewrite E; simpl; rewrite Hd; reflexivity.
Qed.

Lemma mkdir_p_extends (p : Path) (st st' : fs) (r : result unit) :
  mkdir_p p st = (r, st') -> extends st st'.
Proof. apply mkdir_parents_extends. Qed.

Lemma mkdir_p_ok_is_dir (p : Path) (st st' : fs) (x : unit) :
  mkdir_p p st = (Ok x, st') -> is_dir st' p = true.
Proof. apply mkdir_parents_ok_is_dir. Qed.

Lemma mkdir_p_existing (p : Path) (st : fs) :
  is_dir st p = true -> mkdir_p p st = (Ok tt, st).
Proof. apply mkdir_parents_existing. Qed.

Lemma write_text_cases (p : Path) (data : str) (st st' : fs)
    (r : result unit) :
  write_text p data st = (r, st') ->
  (exists name d content,
     last (p_parts p) = Some name /\ holder st p = Ok d /\
     str_eqb name DOTDOT = false /\ node_at st (name :: d) <> Some Dir /\
     path_error p = None /\
     st' = put (name :: d) (File content) (Write (name :: d) content) st /\
     ((r = Ok tt /\ content = data /\ utf8_encodable data = true)
      \/ (r = Raise UnicodeEncodeError /\ content = []
          /\ utf8_encodable data = false)))
  \/ (exists e, r = Raise e /\ st' = st).
Proof.
  unfold write_text. intros H.
  destruct (path_error p) as [e0|] eqn:Hpe.
  { right. injection H as <- <-. eauto. }
  destruct (last (p_parts p)) as [name|] eqn:Hl.
  2:{ right. injection H as <- <-. eauto. }
  destruct (holder st p) as [d|e] eqn:Hd.
  2:{ right. injection H as <- <-. eauto. }
  destruct (str_eqb name DOTDOT) eqn:Hdd.
  { right. injection H as <- <-. eauto. }
  assert (Hopen : node_at st (name :: d) <> Some Dir ->
            (r, st') = (if utf8_encodable data
                        then (Ok tt, put (name :: d) (File data)
                                         (Write (name :: d) data) st)
                        else (Raise UnicodeEncodeError,
                              put (name :: d) (File [])
                                  (Write (name :: d) []) st)) ->
            exists content,
              node_at st (name :: d) <> Some Dir /\
              st' = put (name :: d) (File content)
                        (Write (name :: d) content) st /\
              ((r = Ok tt /\ content = data /\ utf8_encodable data = true)
               \/ (r = Raise UnicodeEncodeError /\ content = []
                   /\ utf8_encodable data = false))).
  { intros Hn. destruct (utf8_encodable data); intros [= -> ->].
    - exists data. split; [exact Hn|]. split; [reflexivity|]. left. auto.
    - exists []. split; [exact Hn|]. split; [reflexivity|]. right. auto. }
  destruct (node_at st (name :: d)) as [[|c]|] eqn:Hn.
  { right. injection H as <- <-. eauto. }
  all: left; symmetry in H; apply Hopen in H; [|discriminate];
    destruct H as (content & Hn' & Hst & Hr);
    exists name, d, content; rewrite Hn; auto 10.
Qed.

Lemma walk_app (st : fs) (a b : list str) (cur : loc) :
  walk st cur (a ++ b) = d ← walk st cur a; walk st d b.
Proof.
  revert cur. induction a as [|name a IH]; intros cur; simpl; [reflexivity|].
  destruct (str_eqb name DOTDOT); [apply IH|].
  destruct (node_at st (name :: cur)) as [[|c]|]; auto.
Qed.

Lemma parts_snoc (p : Path) (name : str) :
  last (p_parts p) = Some name ->
  p_parts p = p_parts (path_parent p) ++ [name]
  /\ p_root (path_parent p) = p_root p.
Proof.
  intros H. apply last_Some in H as [l' Hl]. unfold path_parent. rewrite Hl.
  destruct l' as [|x l']. 1: split; reflexivity.
  split; [|reflexivity].
  change (p_parts (mkPath (p_root p) (removelast ((x :: l') ++ [name])))
          ++ [name] = (x :: l') ++ [name]) || symmetry.
  change (removelast ((x :: l') ++ [name]) ++ [name] = (x :: l') ++ [name]).
  now rewrite removelast_last.
Qed.

(** *** Paths that cannot be given to the kernel *)

Lemma existsb_join (f : N -> bool) (parts : list str) :
  f SLASH = false ->
  existsb f (join [SLASH] parts) = existsb (existsb f) parts.
Proof.
  intros Hs. induction parts as [|x rest IH]; [reflexivity|].
  destruct rest as [|y rest].
  - simpl. now rewrite orb_false_r.
  - change (join [SLASH] (x :: y :: rest))
      with (x ++ [SLASH] ++ join [SLASH] (y :: rest)).
    rewrite !existsb_app, IH. simpl. now rewrite Hs.
Qed.

Lemma existsb_path_str (f : N -> bool) (p : Path) :
  f SLASH = false -> f 46%N = false ->
  existsb f (path_str p)
  = existsb f (p_root p) || existsb (existsb f) (p_parts p).
Proof.
  intros Hs Hdot. unfold path_str.
  destruct (p_root p) as [|c root]; [destruct (p_parts p) as [|x parts]|];
    cbv beta iota.
  - change (u ".") with [46%N]. simpl. now rewrite Hdot.
  - now rewrite existsb_app, existsb_join.
  - now rewrite existsb_app, existsb_join.
Qed.

Lemma existsb_removelast {A} (g : A -> bool) (l : list A) :
  existsb g (removelast l) = true -> existsb g l = true.
Proof.
  induction l as [|x l IH]; [auto|]. destruct l as [|y l]; [discriminate|].
  change (removelast (x :: y :: l)) with (x :: removelast (y :: l)).
  simpl existsb at 1. intros H. apply orb_true_iff in H as [H|H].
  - simpl. now rewrite H.
  - apply IH in H. simpl in *. rewrite H. apply orb_true_r.
Qed.

Lemma existsb_path_parent (f : N -> bool) (p : Path) :
  f SLASH = false -> f 46%N = false ->
  existsb f (path_str p) = false ->
  existsb f (path_str (path_parent p)) = false.
Proof.
  intros Hs Hdot. rewrite !existsb_path_str by assumption.
  intros H. apply orb_false_iff in H as [Hr Hp].
  unfold path_parent. destruct (p_parts p) as [|x parts] eqn:E.
  - now rewrite E, Hr.
  - cbn [p_root p_parts]. rewrite Hr. cbn [orb].
    destruct (existsb (existsb f) (removelast (x :: parts))) eqn:El;
      [|reflexivity].
    apply existsb_removelast in El. congruence.
Qed.

Lemma path_error_None (p : Path) :
  path_error p = None <->
  existsb (fun c => is_surrogate c && negb (is_escape c)) (path_str p) = false
  /\ existsb (N.eqb 0) (path_str p) = false.
Proof.
  unfold path_error. destruct (existsb _ (path_str p)).
  - split; [discriminate|]. now intros [? _].
  - destruct (existsb (N.eqb 0) (path_str p)).
    + split; [discriminate|]. now intros [_ ?].
    + tauto.
Qed.

(** The parent of a path that can be given to the kernel can be given to
    it. *)
Lemma path_error_parent (p : Path) :
  path_error p = None -> path_error (path_parent p) = None.
Proof.
  rewrite !path_error_None. intros [H1 H2].
  split; apply existsb_path_parent; auto.
Qed.

Lemma stat_ok_path (st : fs) (p : Path) (n : node) :
  stat st p = Ok n -> path_error p = None.
Proof. unfold stat. destruct (path_error p); [discriminate|reflexivity]. Qed.

Lemma is_dir_path (st : fs) (p : Path) :
  is_dir st p = true -> path_error p = None.
Proof.
  unfold is_dir. destruct (stat st p) as [n|] eqn:E; [|discriminate].
  intros _. eapply stat_ok_path. exact E.
Qed.

Lemma path_exists_path (st : fs) (p : Path) :
  path_exists st p = true -> path_error p = None.
Proof.
  unfold path_exists. destruct (stat st p) as [n|] eqn:E; [|discriminate].
  intros _. eapply stat_ok_path. exact E.
Qed.

(** A path that is a directory can be walked to its end. *)
Lemma is_dir_walk (st : fs) (q : Path) :
  is_dir st q = true ->
  exists d, walk st (start_of st q) (p_parts q) = Ok d.
Proof.
  unfold is_dir, stat. destruct (path_error q); [discriminate|].
  destruct (last (p_parts q)) as [name|] eqn:Hl.
  - destruct (parts_snoc _ _ Hl) as [Hparts _].
    destruct (holder st q) as [d|] eqn:Hd; [|discriminate]. simpl.
    unfold holder in Hd. rewrite Hparts, walk_app, Hd. simpl.
    destruct (str_eqb name DOTDOT); [eauto|].
    destruct (node_at st (name :: d)) as [[|c]|]; try discriminate. eauto.
  - intros _. apply last_None in Hl. rewrite Hl. simpl. eauto.
Qed.

Lemma holder_of_dir_parent (st : fs) (p : Path) :
  is_dir st (path_parent p) = true -> exists d, holder st p = Ok d.
Proof.
  intros H. apply is_dir_walk in H as [d Hd]. exists d.
  unfold holder. rewrite <- Hd. f_equal.
  unfold start_of, path_parent. destruct (p_parts p); reflexivity.
Qed.

(** The holder of a path with a last component is its parent, a
    directory. *)
Lemma holder_parent_is_dir (st : fs) (p : Path) (d : loc) :
  path_error p = None ->
  holder st p = Ok d -> is_dir st (path_parent p) = true.
Proof.
  intros Hpe. apply path_error_parent in Hpe. revert Hpe.
  unfold holder. set (q := path_parent p).
  assert (Hstart : start_of st p = start_of st q).
  { unfold start_of, q, path_parent. destruct (p_parts p); reflexivity. }
  rewrite Hstart. clearbody q. clear Hstart. intros Hpe Hw.
  unfold is_dir, stat. rewrite Hpe.
  destruct (last (p_parts q)) as [name|] eqn:Hl; [|reflexivity].
  destruct (parts_snoc _ _ Hl) as [Hparts _].
  rewrite Hparts, walk_app in Hw. unfold holder.
  destruct (walk st (start_of st q) (p_parts (path_parent q))) as [d'|];
    [|discriminate].
  simpl in *. destruct (str_eqb name DOTDOT); [reflexivity|].
  destruct (node_at st (name :: d')) as [[|c]|]; try discriminate.
  reflexivity.
Qed.

Lemma os_mkdir_ok_parent (p : Path) (st st' : fs) (x : unit) :
  os_mkdir p st = (Ok x, st') -> is_dir st (path_parent p) = true.
Proof.
  intros H. apply os_mkdir_cases in H
    as [(name & d & _ & _ & Hd & _ & _ & Hpe & _) | (e & [=] & _)].
  eapply holder_parent_is_dir; eauto.
Qed.

Lemma is_dir_parent (st : fs) (p : Path) :
  is_dir st p = true -> is_dir st (path_parent p) = true.
Proof.
  intros H. pose proof (is_dir_path _ _ H) as Hpe. revert H.
  unfold is_dir at 1. unfold stat. rewrite Hpe.
  destruct (last (p_parts p)) as [name|] eqn:Hl.
  - destruct (holder st p) as [d|] eqn:Hd; [|discriminate]. intros _.
    eapply holder_parent_is_dir; eauto.
  - intros _. apply last_None in Hl.
    assert (Hq : path_parent p = p).
    { unfold path_parent. now rewrite Hl. }
    rewrite Hq. unfold is_dir, stat. now rewrite Hpe, Hl.
Qed.

Lemma os_mkdir_raise_state (p : Path) (st st' : fs) (e : exn) :
  os_mkdir p st = (Raise e, st') -> st' = st.
Proof.
  intros H. apply os_mkdir_cases in H
    as [(name & d & [=] & _) | (e' & _ & ->)]. reflexivity.
Qed.

(** An aborted [mkdir(parents=True, exist_ok=True)] is aborted again, without
    a change, when it is repeated from the state it left. *)
Lemma mkdir_parents_aborted_again (n : nat) (p : Path) (st st' : fs)
    (e : exn) :
  mkdir_parents n p st = (Raise e, st') ->
  exists e', mkdir_parents n p st' = (Raise e', st').
Proof.
  revert p st st' e. induction n as [|n IH]; intros p st st' e; simpl;
    destruct (os_mkdir p st) as [[x|e0] st0] eqn:E; try discriminate;
    pose proof (os_mkdir_raise_state _ _ _ _ E) as ->.
  - intros H. assert (st' = st) as ->.
    { destruct e0; simpl in H; try (injection H as _ <-; reflexivity);
        destruct (is_dir st p); try discriminate;
        injection H as _ <-; reflexivity. }
    rewrite E. destruct e0; simpl in *; eauto;
      destruct (is_dir st p); try discriminate; eauto.
  - destruct e0; simpl;
      try solve [intros H; injection H as _ <-; rewrite E; simpl; eauto];
      try solve [intros H; destruct (is_dir st p) eqn:Hd; [discriminate|];
                 injection H as _ <-; rewrite E; simpl; rewrite Hd; eauto].
    destruct (mkdir_parents n (path_parent p) st) as [[y|e1] st1] eqn:E1.
    + (* the parents were made, the last call failed *)
      unfold mkdir_here.
      destruct (os_mkdir p st1) as [[z|e2] st2] eqn:E2; [discriminate|].
      pose proof (os_mkdir_raise_state _ _ _ _ E2) as ->.
      intros H.
      assert (st' = st1 /\ (e2 = FileNotFoundError
                            \/ is_OSError e2 && is_dir st1 p = false))
        as [-> Hcase].
      { destruct e2; simpl in H; try (injection H as _ <-; auto);
          destruct (is_dir st1 p); try discriminate;
          injection H as _ <-; auto. }
      rewrite E2.
      pose proof (mkdir_parents_ok_is_dir _ _ _ _ _ E1) as Hpar.
      destruct e2;
        try solve [destruct Hcase as [?|Hc]; [discriminate|];
                   simpl in *; rewrite ?Hc; eauto].
      rewrite (mkdir_parents_existing _ _ _ Hpar). unfold mkdir_here.
      rewrite E2. eauto.
    + (* making the parents failed *)
      intros [= <- <-]. destruct (IH _ _ _ _ E1) as [e1' H1].
      destruct (os_mkdir p st1) as [[z|e2] st2] eqn:E2.
      { apply os_mkdir_ok_parent in E2.
        rewrite (mkdir_parents_existing _ _ _ E2) in H1. discriminate. }
      pose proof (os_mkdir_raise_state _ _ _ _ E2) as ->.
      assert (Hnd : is_dir st1 p = false).
      { destruct (is_dir st1 p) eqn:Hd; [|reflexivity].
        apply is_dir_parent in Hd.
        rewrite (mkdir_parents_existing _ _ _ Hd) in H1. discriminate. }
      destruct e2; simpl; rewrite ?Hnd, ?H1; eauto.
Qed.

(** *** The loop body, by cases *)

Lemma scaffold_entry_dry (root_abs : Path) (force : bool)
    (dfc : option str) (actions : list action) (e : entry) (st : fs) :
  scaffold_entry root_abs true force dfc actions e st
  = (Ok (actions ++ [action_of root_abs e]), st).
Proof. destruct e as [rel [|]]; reflexivity. Qed.

Lemma scaffold_entry_dir (root_abs : Path) (force : bool)
    (dfc : option str) (actions : list action) (rel : str) (st : fs) :
  scaffold_entry root_abs false force dfc actions (rel, true) st
  = match mkdir_p (path_div root_abs (Path_of rel)) st with
    | (Ok _, st') => (Ok (actions ++ [action_of root_abs (rel, true)]), st')
    | (Raise e, st') => (Raise e, st')
    end.
Proof.
  unfold scaffold_entry. simpl negb. cbv iota. unfold mbind, M_bind.
  destruct (mkdir_p _ st) as [[x|e] st']; reflexivity.
Qed.

Lemma scaffold_entry_file (root_abs : Path) (force : bool)
    (dfc : option str) (actions : list action) (rel : str) (st : fs) :
  let target := path_div root_abs (Path_of rel) in
  scaffold_entry root_abs false force dfc actions (rel, false) st
  = match mkdir_p (path_parent target) st with
    | (Ok _, st1) =>
        if path_exists st1 target && negb (force && is_file st1 target)
        then (Ok (actions ++ [action_of root_abs (rel, false)]), st1)
        else
          match write_text target (default [] dfc) st1 with
          | (Ok _, st2) =>
              (Ok (actions ++ [action_of root_abs (rel, false)]), st2)
          | (Raise e, st2) => (Raise e, st2)
          end
    | (Raise e, st1) => (Raise e, st1)
    end.
Proof.
  intros target. unfold scaffold_entry. simpl negb. cbv iota.
  fold target. unfold mbind, M_bind.
  destruct (mkdir_p (path_parent target) st) as [[x|e] st1]; [|reflexivity].
  unfold query, query_r, and_then, mbind, M_bind, mret, M_ret.
  destruct (path_exists st1 target) eqn:Hex; simpl.
  2:{ destruct (write_text target (default [] dfc) st1) as [[y|e] st2];
      reflexivity. }
  destruct force; simpl; [|reflexivity].
  destruct (is_file st1 target) eqn:Hf; simpl.
  2:{ rewrite Hf. reflexivity. }
  unfold st_size. unfold is_file in Hf.
  destruct (stat st1 target) as [[|c]|] eqn:Hs; try discriminate. simpl.
  destruct (utf8_len c =? 0); simpl.
  - destruct (write_text target (default [] dfc) st1) as [[y|e] st2];
      reflexivity.
  - unfold is_file. rewrite Hs. simpl.
    destruct (write_text target (default [] dfc) st1) as [[y|e] st2];
      reflexivity.
Qed.

(** *** The action list *)

Lemma scaffold_entry_actions (root_abs : Path) (dry force : bool)
    (dfc : option str) (actions acts : list action) (e : entry)
    (st st' : fs) :
  scaffold_entry root_abs dry force dfc actions e st = (Ok acts, st') ->
  acts = actions ++ [action_of root_abs e].
Proof.
  destruct dry.
  { rewrite scaffold_entry_dry. now intros [= <- _]. }
  destruct e as [rel [|]].
  - rewrite scaffold_entry_dir.
    destruct (mkdir_p _ st) as [[x|e] st1]; [|discriminate].
    now intros [= <- _].
  - rewrite scaffold_entry_file.
    destruct (mkdir_p _ st) as [[x|e] st1]; [|discriminate].
    destruct (_ && _); [now intros [= <- _]|].
    destruct (write_text _ _ st1) as [[y|e] st2]; [|discriminate].
    now intros [= <- _].
Qed.

Lemma scaffold_loop_actions (root_abs : Path) (dry force : bool)
    (dfc : option str) (entries : list entry) (actions acts : list action)
    (st st' : fs) :
  scaffold_loop root_abs dry force dfc actions entries st = (Ok acts, st') ->
  acts = actions ++ map (action_of root_abs) entries.
Proof.
  revert actions st. induction entries as [|e entries IH]; intros actions st.
  - simpl. intros [= <- _]. now rewrite app_nil_r.
  - simpl. unfold mbind, M_bind.
    destruct (scaffold_entry root_abs dry force dfc actions e st)
      as [[a1|x] st1] eqn:E; [|discriminate].
    apply scaffold_entry_actions in E as ->. intros H.
    apply IH in H as ->. now rewrite <- app_assoc.
Qed.

Lemma scaffold_loop_dry (root_abs : Path) (force : bool) (dfc : option str)
    (entries : list entry) (actions : list action) (st : fs) :
  scaffold_loop root_abs true force dfc actions entries st
  = (Ok (actions ++ map (action_of root_abs) entries), st).
Proof.
  revert actions. induction entries as [|e entries IH]; intros actions; simpl.
  - now rewrite app_nil_r.
  - unfold mbind, M_bind. rewrite scaffold_entry_dry, IH.
    now rewrite <- app_assoc.
Qed.

(** A dry run returns the planned actions and leaves the state as it is. *)
Lemma create_scaffold_dry (root : Path) (entries : list entry)
    (base_root : Path) (force : bool) (dfc : option str) (st : fs) :
  create_scaffold root entries base_root true force dfc st
  = (Ok (planned_actions root entries base_root), st).
Proof.
  unfold create_scaffold. simpl negb. cbv iota. unfold mbind, M_bind.
  simpl. apply scaffold_loop_dry.
Qed.

(** A run that returns, returns the planned actions. *)
Lemma create_scaffold_actions (root : Path) (entries : list entry)
    (base_root : Path) (dry force : bool) (dfc : option str)
    (acts : list action) (st st' : fs) :
  create_scaffold root entries base_root dry force dfc st = (Ok acts, st') ->
  acts = planned_actions root entries base_root.
Proof.
  unfold create_scaffold, mbind, M_bind.
  destruct ((if negb dry then mkdir_p _ else mret tt) st) as [[x|e] st0];
    [|discriminate].
  apply scaffold_loop_actions.
Qed.

(** *** Runs without [force] only add nodes *)

Lemma absent_of_not_exists (st : fs) (p : Path) (name : str) (d : loc) :
  path_error p = None ->
  path_exists st p = false -> last (p_parts p) = Some name ->
  holder st p = Ok d -> str_eqb name DOTDOT = false ->
  nodes st !! (name :: d) = None.
Proof.
  unfold path_exists, stat. intros Hpe H Hl Hd Hdd.
  rewrite Hpe, Hl, Hd in H.
  simpl in H. rewrite Hdd in H. unfold node_at in H.
  destruct (nodes st !! (name :: d)); [discriminate|reflexivity].
Qed.

Lemma scaffold_entry_extends (root_abs : Path) (dry : bool)
    (dfc : option str) (actions : list action) (e : entry)
    (r : result (list action)) (st st' : fs) :
  scaffold_entry root_abs dry false dfc actions e st = (r, st') ->
  extends st st'.
Proof.
  destruct dry.
  { rewrite scaffold_entry_dry. intros [= _ <-]. apply extends_refl. }
  destruct e as [rel [|]].
  - rewrite scaffold_entry_dir.
    destruct (mkdir_p _ st) as [[x|e] st1] eqn:E;
      apply mkdir_p_extends in E; now intros [= _ <-].
  - rewrite scaffold_entry_file.
    destruct (mkdir_p _ st) as [[x|e] st1] eqn:E;
      apply mkdir_p_extends in E; [|now intros [= _ <-]].
    simpl. rewrite andb_true_r.
    destruct (path_exists st1 _) eqn:Hex; [now intros [= _ <-]|].
    destruct (write_text _ _ st1) as [r2 st2] eqn:W. intros H.
    assert (st' = st2) as -> by (destruct r2; now injection H).
    eapply extends_trans; [exact E|].
    apply write_text_cases in W
      as [(name & d & c & Hl & Hd & Hdd & _ & Hpe & -> & _) | (e & _ & ->)].
    + apply put_extends; [eapply absent_of_not_exists; eauto|].
      now intros l' content [= <- _].
    + apply extends_refl.
Qed.

Lemma scaffold_loop_extends (root_abs : Path) (dry : bool)
    (dfc : option str) (entries : list entry) (actions : list action)
    (r : result (list action)) (st st' : fs) :
  scaffold_loop root_abs dry false dfc actions entries st = (r, st') ->
  extends st st'.
Proof.
  revert actions st. induction entries as [|e entries IH]; intros actions st.
  - simpl. intros [= _ <-]. apply extends_refl.
  - simpl. unfold mbind, M_bind.
    destruct (scaffold_entry root_abs dry false dfc actions e st)
      as [[a1|x] st1] eqn:E; apply scaffold_entry_extends in E.
    + intros H. apply IH in H. eapply extends_trans; eauto.
    + now intros [= _ <-].
Qed.

Lemma create_scaffold_extends (root : Path) (entries : list entry)
    (base_root : Path) (dry : bool) (dfc : option str)
    (r : result (list action)) (st st' : fs) :
  create_scaffold root entries base_root dry false dfc st = (r, st') ->
  extends st st'.
Proof.
  unfold create_scaffold, mbind, M_bind.
  destruct ((if negb dry then mkdir_p _ else mret tt) st)
    as [[x|e] st0] eqn:E.
  - intros H. apply scaffold_loop_extends in H.
    eapply extends_trans; [|exact H].
    destruct dry; simpl in E.
    + injection E as _ <-. apply extends_refl.
    + eapply mkdir_p_extends. exact E.
  - intros [= _ <-]. destruct dry; simpl in E; [discriminate|].
    eapply mkdir_p_extends. exact E.
Qed.

(** *** A second run finds everything in place *)

Lemma scaffold_entry_stable (root_abs : Path) (dfc : option str)
    (actions acts : list action) (e : entry) (st st' T : fs) :
  scaffold_entry root_abs false false dfc actions e st = (Ok acts, st') ->
  extends st' T ->
  scaffold_entry root_abs false false dfc actions e T = (Ok acts, T).
Proof.
  destruct e as [rel [|]].
  - rewrite !scaffold_entry_dir.
    destruct (mkdir_p _ st) as [[x|e] st1] eqn:E; [|discriminate].
    intros [= <- <-] Hext. apply mkdir_p_ok_is_dir in E.
    rewrite mkdir_p_existing; [reflexivity|].
    eapply is_dir_extends; eauto.
  - rewrite !scaffold_entry_file. simpl.
    set (target := path_div root_abs (Path_of rel)).
    destruct (mkdir_p (path_parent target) st) as [[x|e] st1] eqn:E;
      [|discriminate].
    pose proof (mkdir_p_ok_is_dir _ _ _ _ E) as Hparent.
    rewrite andb_true_r. intros H Hext.
    assert (Hboth : acts = actions ++ [action_of root_abs (rel, false)]
                    /\ extends st1 st' /\ path_exists st' target = true).
    { destruct (path_exists st1 target) eqn:Hex.
      - injection H as <- <-.
        split; [reflexivity|]. split; [apply extends_refl|exact Hex].
      - destruct (write_text target (default [] dfc) st1)
          as [[y|e] st2] eqn:W; [|discriminate].
        injection H as <- <-.
        apply write_text_cases in W
          as [(name & d & c & Hl & Hd & Hdd & Hn & Hpe & -> & _)
             | (e & [=] & _)].
        split; [reflexivity|]. split.
        + apply put_extends; [eapply absent_of_not_exists; eauto|].
          now intros l' content [= <- _].
        + unfold path_exists. now rewrite (stat_after_put _ _ name d). }
    destruct Hboth as (-> & Hext1 & Hex').
    rewrite mkdir_p_existing.
    + now rewrite andb_true_r, (path_exists_extends _ _ _ Hext Hex').
    + eapply is_dir_extends; [|exact Hparent].
      eapply extends_trans; eauto.
Qed.

Lemma scaffold_loop_stable (root_abs : Path) (dfc : option str)
    (entries : list entry) (actions acts : list action) (st st' T : fs) :
  scaffold_loop root_abs false false dfc actions entries st = (Ok acts, st') ->
  extends st' T ->
  scaffold_loop root_abs false false dfc actions entries T = (Ok acts, T).
Proof.
  revert actions st. induction entries as [|e entries IH]; intros actions st.
  - simpl. now intros [= <- _] _.
  - simpl. unfold mbind, M_bind.
    destruct (scaffold_entry root_abs false false dfc actions e st)
      as [[a1|x] st1] eqn:E; [|discriminate].
    intros H Hext.
    rewrite (scaffold_entry_stable _ _ _ _ _ _ _ T E).
    + eapply IH; eauto.
    + eapply extends_trans; [|exact Hext].
      eapply scaffold_loop_extends. exact H.
Qed.


(** *** A second run after an aborted one *)

Lemma scaffold_entry_aborted_again (root_abs : Path) (dfc : option str)
    (actions : list action) (e : entry) (x : exn) (st st' : fs) :
  utf8_encodable (default [] dfc) = true ->
  scaffold_entry root_abs false false dfc actions e st = (Raise x, st') ->
  exists x',
    scaffold_entry root_abs false false dfc actions e st' = (Raise x', st').
Proof.
  intros Henc. destruct e as [rel [|]].
  - rewrite !scaffold_entry_dir.
    destruct (mkdir_p _ st) as [[y|e] st1] eqn:E; [discriminate|].
    intros [= <- <-]. apply mkdir_parents_aborted_again in E as [e' E'].
    unfold mkdir_p. rewrite E'. eauto.
  - rewrite !scaffold_entry_file. simpl.
    set (target := path_div root_abs (Path_of rel)).
    destruct (mkdir_p (path_parent target) st) as [[y|e] st1] eqn:E.
    + rewrite andb_true_r.
      destruct (path_exists st1 target) eqn:Hex; [discriminate|].
      destruct (write_text target (default [] dfc) st1)
        as [[z|e] st2] eqn:W; [discriminate|].
      intros [= <- <-].
      assert (st2 = st1) as ->.
      { apply write_text_cases in W
          as [(name & d & c & _ & _ & _ & _ & _ & _ & [([=] & _)|(_ & _ & Hc)])
             | (e' & _ & ->)]; [congruence|reflexivity]. }
      rewrite mkdir_p_existing by (eapply mkdir_p_ok_is_dir; exact E).
      rewrite andb_true_r, Hex, W. eauto.
    + intros [= <- <-]. apply mkdir_parents_aborted_again in E as [e' E'].
      unfold mkdir_p. rewrite E'. eauto.
Qed.

Lemma scaffold_loop_aborted_again (root_abs : Path) (dfc : option str)
    (entries : list entry) (actions : list action) (x : exn) (st st' : fs) :
  utf8_encodable (default [] dfc) = true ->
  scaffold_loop root_abs false false dfc actions entries st = (Raise x, st') ->
  exists x',
    scaffold_loop root_abs false false dfc actions entries st'
    = (Raise x', st').
Proof.
  intros Henc. revert actions st.
  induction entries as [|e entries IH]; intros actions st.
  - discriminate.
  - simpl. unfold mbind, M_bind.
    destruct (scaffold_entry root_abs false false dfc actions e st)
      as [[a1|y] st1] eqn:E.
    + intros H.
      rewrite (scaffold_entry_stable _ _ _ _ _ _ _ st' E).
      * eapply IH. exact H.
      * eapply scaffold_loop_extends. exact H.
    + intros [= <- <-].
      apply scaffold_entry_aborted_again in E as [x' ->]; eauto.
Qed.

Lemma create_scaffold_aborted_again (root : Path) (entries : list entry)
    (base_root : Path) (dfc : option str) (x : exn) (st st' : fs) :
  utf8_encodable (default [] dfc) = true ->
  create_scaffold root entries base_root false false dfc st = (Raise x, st') ->
  exists x',
    create_scaffold root entries base_root false false dfc st'
    = (Raise x', st').
Proof.
  intros Henc.
  unfold create_scaffold. simpl negb. cbv iota. unfold mbind, M_bind.
  destruct (mkdir_p (path_div base_root root) st) as [[y|e] st0] eqn:E.
  - intros H. pose proof (scaffold_loop_extends _ _ _ _ _ _ _ _ H) as Hext.
    rewrite mkdir_p_existing.
    + eapply scaffold_loop_aborted_again; eauto.
    + eapply is_dir_extends; [exact Hext|].
      eapply mkdir_p_ok_is_dir. exact E.
  - intros [= <- <-]. apply mkdir_parents_aborted_again in E as [e' E'].
    unfold mkdir_p. rewrite E'. eauto.
Qed.

(** C4, as the specification words it, fails: without [force] an existing
    empty file is kept as it is, and the text is not written. *)
Lemma C4_empty_file_kept_without_force : ~ write_policy_as_stated.
Proof.
  intros H.
  assert (Hrun : scaffold_entry (path_div out proj) false false
                   (Some (u "hello")) [] (u "notes.txt", false)
                   with_empty_notes
                 = (Ok [(u "touch", u "/out/root/notes.txt")],
                    with_empty_notes)) by (vm_compute; reflexivity).
  specialize (H _ _ _ _ _ _ _ _ Hrun). cbv zeta in H.
  assert (Hkept : read_text with_empty_notes
                    (path_div (path_div out proj) (Path_of (u "notes.txt")))
                  = Some []) by (vm_compute; reflexivity).
  rewrite H in Hkept; [discriminate|].
  right. right. exact Hkept.
Qed.

(** Opening for writing succeeds below a directory, at a path that can be
    given to the kernel and is not a directory. *)
Lemma openable (st : fs) (p : Path) :
  is_dir st (path_parent p) = true ->
  (path_exists st p = false /\ path_error p = None) \/ is_file st p = true ->
  exists name d,
    path_error p = None /\ last (p_parts p) = Some name
    /\ holder st p = Ok d /\ str_eqb name DOTDOT = false
    /\ node_at st (name :: d) <> Some Dir.
Proof.
  intros Hparent Hcase.
  destruct (holder_of_dir_parent st p Hparent) as [d Hd].
  assert (Hpe : path_error p = None).
  { destruct Hcase as [[_ ?]|Hf]; [assumption|].
    unfold is_file in Hf. destruct (stat st p) as [n|] eqn:E; [|discriminate].
    eapply stat_ok_path. exact E. }
  unfold path_exists, is_file, stat in Hcase. rewrite Hpe, Hd in Hcase.
  destruct (last (p_parts p)) as [name|].
  2:{ destruct Hcase as [[? _] | ?]; discriminate. }
  simpl in Hcase. exists name, d.
  destruct (str_eqb name DOTDOT).
  { destruct Hcase as [[? _] | ?]; discriminate. }
  repeat split; auto. intros Hn. rewrite Hn in Hcase.
  destruct Hcase as [[? _] | ?]; discriminate.
Qed.

Lemma write_text_opened (p : Path) (data : str) (st : fs) (name : str)
    (d : loc) :
  path_error p = None -> last (p_parts p) = Some name ->
  holder st p = Ok d -> str_eqb name DOTDOT = false ->
  node_at st (name :: d) <> Some Dir ->
  write_text p data st
  = if utf8_encodable data
    then (Ok tt, put (name :: d) (File data) (Write (name :: d) data) st)
    else (Raise UnicodeEncodeError,
          put (name :: d) (File []) (Write (name :: d) []) st).
Proof.
  intros Hpe Hl Hd Hdd Hn. unfold write_text. rewrite Hpe, Hl, Hd, Hdd.
  destruct (node_at st (name :: d)) as [[|c]|]; [congruence| |]; reflexivity.
Qed.

Lemma write_text_path_error (p : Path) (data : str) (st : fs) (e : exn) :
  path_error p = Some e -> write_text p data st = (Raise e, st).
Proof. intros H. unfold write_text. now rewrite H. Qed.

Lemma path_error_not_exists (st : fs) (p : Path) (e : exn) :
  path_error p = Some e -> path_exists st p = false.
Proof. intros H. unfold path_exists, stat. now rewrite H. Qed.

(** C4, amended. For a file entry whose parent directory chain exists or
    could be created. When the target does not exist and its path can be
    given to the operating system and is within its limits, or [force] is
    set and the target is a regular file, the file is created or truncated:
    if the default content can be encoded as UTF-8, the entry records its
    touch action and the file then holds exactly the default content; if it
    cannot, the entry raises [UnicodeEncodeError] and the file is left
    empty. When the path of the target cannot be given to the operating
    system, the error of that is raised and nothing more is changed. When
    the target exists and either [force] is not set or the target is not a
    regular file, the entry records its touch action and changes nothing
    more. *)
Theorem C4_write_policy (root_abs : Path) (force : bool) (dfc : option str)
    (actions : list action) (rel : str) (st st1 : fs) :
  let target := path_div root_abs (Path_of rel) in
  let touch := (u "touch", path_str target) in
  let entry_run :=
    scaffold_entry root_abs false force dfc actions (rel, false) st in
  mkdir_p (path_parent target) st = (Ok tt, st1) ->
  ((path_exists st1 target = false /\ path_error target = None
    /\ within_limits target = true)
   \/ (force = true /\ is_file st1 target = true) ->
   (utf8_encodable (default [] dfc) = true ->
    exists st2,
      entry_run = (Ok (actions ++ [touch]), st2)
      /\ read_text st2 target = Some (default [] dfc))
   /\ (utf8_encodable (default [] dfc) = false ->
       exists st2,
         entry_run = (Raise UnicodeEncodeError, st2)
         /\ read_text st2 target = Some []))
  /\ (forall e, path_error target = Some e -> entry_run = (Raise e, st1))
  /\ (path_exists st1 target = true ->
      force = false \/ is_file st1 target = false ->
      entry_run = (Ok (actions ++ [touch]), st1)).
Proof.
  intros target touch entry_run Hmk. unfold entry_run.
  rewrite scaffold_entry_file. fold target. rewrite Hmk.
  split; [|split].
  - intros Hcase.
    assert (Hcond : path_exists st1 target
                    && negb (force && is_file st1 target) = false).
    { destruct Hcase as [[-> _] | [-> ->]];
        [reflexivity|apply andb_false_r]. }
    rewrite Hcond.
    destruct (openable st1 target) as (name & d & Hpe & Hl & Hd & Hdd & Hn).
    { eapply mkdir_p_ok_is_dir. exact Hmk. }
    { destruct Hcase as [(? & ? & _)|[_ ?]]; auto. }
    rewrite (write_text_opened _ _ _ name d) by assumption.
    split; intros ->; eexists; (split; [reflexivity|]);
      unfold read_text; now rewrite (stat_after_put _ _ name d).
  - intros e He. rewrite (path_error_not_exists _ _ _ He).
    cbn [andb]. now rewrite (write_text_path_error _ _ _ _ He).
  - intros Hex Hcase.
    assert (Hcond : path_exists st1 target
                    && negb (force && is_file st1 target) = true).
    { rewrite Hex. destruct Hcase as [-> | ->]; rewrite ?andb_false_r;
        reflexivity. }
    now rewrite Hcond.
Qed.

Lemma C4_write_policy_witness :
  exists st2,
    scaffold_entry (path_div out proj) false true (Some (u "hello")) []
      (u "notes.txt", false) with_notes
    = (Ok ([] ++ [(u "touch",
                   path_str (path_div (path_div out proj)
                                      (Path_of (u "notes.txt"))))]),
       st2)
    /\ read_text st2 (path_div (path_div out proj) (Path_of (u "notes.txt")))
       = Some (default [] (Some (u "hello"))).
Proof.
  apply (proj1 (proj1 (C4_write_policy (path_div out proj) true
                         (Some (u "hello")) [] (u "notes.txt") with_notes
                         with_notes ltac:(vm_compute; reflexivity))
                 ltac:(right; split; vm_compute; reflexivity))).
  vm_compute. reflexivity.
Defined.

(** C7, as the specification words it, fails: with a default content that
    UTF-8 cannot encode, the first run creates [a.txt], leaves it empty and
    is aborted by [UnicodeEncodeError]; the second run finds [a.txt], keeps
    it, and goes on to create [b.txt]. *)
Lemma C7_unencodable_content_breaks_idempotence : ~ idempotence_as_stated.
Proof.
  intros H. specialize (H proj two_files out (Some byte_ff) fresh).
  cbv zeta in H.
  assert (Hb : nodes (snd (create_scaffold proj two_files out false false
                             (Some byte_ff) fresh))
               !! [u "b.txt"; u "root"; u "out"] = None)
    by (vm_compute; reflexivity).
  rewrite <- H in Hb. vm_compute in Hb. discriminate.
Qed.

(** C7, amended. A second run without [force] and without [dry], from the
    state the first run left, writes to no file that exists, whatever the
    default content. When the default content can be encoded as UTF-8, or
    the first run returned, the second run leaves the state as it is,
    whether the first run returned or was aborted: the nodes are the same,
    and the log of mutating calls has no new entry, so the second run makes
    no directory and writes no file. When the first run returns, the second
    run returns the same actions. *)
Theorem C7_second_run_is_idle (root : Path) (entries : list entry)
    (base_root : Path) (dfc : option str) (st : fs) :
  let run := create_scaffold root entries base_root false false dfc in
  extends (snd (run st)) (snd (run (snd (run st))))
  /\ (utf8_encodable (default [] dfc) = true
      \/ (exists acts, fst (run st) = Ok acts) ->
      snd (run (snd (run st))) = snd (run st)
      /\ forall acts, fst (run st) = Ok acts ->
                      fst (run (snd (run st))) = Ok acts).
Proof.
  intros run. split.
  { destruct (run (snd (run st))) as [r2 st2] eqn:H2.
    eapply create_scaffold_extends. exact H2. }
  intros Hcase. destruct (run st) as [r st'] eqn:H. simpl.
  destruct r as [acts|x].
  - assert (H2 : run st' = (Ok acts, st')).
    { revert H. unfold run, create_scaffold. simpl negb. cbv iota.
      unfold mbind, M_bind.
      destruct (mkdir_p (path_div base_root root) st) as [[y|e] st0] eqn:E;
        [|discriminate].
      intros H.
      pose proof (scaffold_loop_extends _ _ _ _ _ _ _ _ H) as Hext.
      rewrite mkdir_p_existing.
      - eapply scaffold_loop_stable; [exact H|apply extends_refl].
      - eapply is_dir_extends; [exact Hext|].
        eapply mkdir_p_ok_is_dir. exact E. }
    rewrite H2. split; [reflexivity|]. now intros a [= <-].
  - destruct Hcase as [Henc|[acts Hacts]]; [|discriminate].
    apply create_scaffold_aborted_again in H as [x' H2]; [|exact Henc].
    fold run in H2. rewrite H2. split; [reflexivity|]. discriminate.
Qed.

Lemma C7_second_run_is_idle_witness :
  fst (create_scaffold proj tree_entries out false false (Some (u "hi"))
         (snd (create_scaffold proj tree_entries out false false
                 (Some (u "hi")) fresh)))
  = Ok (planned_actions proj tree_entries out).
Proof.
  apply (proj2 (proj2 (C7_second_run_is_idle proj tree_entries out
                         (Some (u "hi")) fresh)
                  ltac:(left; vm_compute; reflexivity))).
  vm_compute. reflexivity.
Defined.

(** C8, as the specification words it, fails: on entries that use a file as
    a directory the run without [dry] is aborted by [FileExistsError] and
    returns no action list, while the dry run returns one. *)
Lemma C8_aborted_run_returns_no_actions : ~ dry_run_as_stated.
Proof.
  intros H.
  destruct (H proj file_as_parent out false None fresh)
    as (acts & st' & Hrun & _).
  assert (E : fst (create_scaffold proj file_as_parent out false false None
                     fresh) = Raise FileExistsError)
    by (vm_compute; reflexivity).
  rewrite Hrun in E. discriminate.
Qed.

(** C8, amended. A dry run always returns the planned actions and leaves the
    file system state, log included, as it was; and whenever the run without
    [dry] returns, it returns the action list of the dry run. *)
Theorem C8_dry_run (root : Path) (entries : list entry) (base_root : Path)
    (force : bool) (dfc : option str) (acts : list action) (st st' : fs) :
  create_scaffold root entries base_root true force dfc st
  = (Ok (planned_actions root entries base_root), st)
  /\ (create_scaffold root entries base_root false force dfc st
      = (Ok acts, st') ->
      create_scaffold root entries base_root true force dfc st
      = (Ok acts, st)).
Proof.
  split; [apply create_scaffold_dry|].
  intros H. apply create_scaffold_actions in H as ->.
  apply create_scaffold_dry.
Qed.

Lemma C8_dry_run_witness :
  create_scaffold proj tree_entries out true true (Some (u "hi")) fresh
  = (Ok (planned_actions proj tree_entries out), fresh).
Proof.
  apply (proj2 (C8_dry_run proj tree_entries out true (Some (u "hi"))
                  (planned_actions proj tree_entries out) fresh
                  (snd (create_scaffold proj tree_entries out false true
                          (Some (u "hi")) fresh)))).
  vm_compute. reflexivity.
Defined.

(** C9. In a run without [force], whether it returns or is aborted, every
    regular file of the state before the run is in the state after it with
    the same content, empty files included; read through any path, its text
    is the same; and every write the run made went to a location that held
    nothing before the run. *)
Theorem C9_existing_files_unchanged (root : Path) (entries : list entry)
    (base_root : Path) (dfc : option str) (r : result (list action))
    (st st' : fs) :
  create_scaffold root entries base_root false false dfc st = (r, st') ->
  (forall l content,
     nodes st !! l = Some (File content) ->
     nodes st' !! l = Some (File content))
  /\ (forall p content,
        read_text st p = Some content -> read_text st' p = Some content)
  /\ (forall l content,
        Write l content ∈ drop (length (oplog st)) (oplog st') ->
        nodes st !! l = None).
Proof.
  intros H. apply create_scaffold_extends in H. split; [|split].
  - intros l content Hl. destruct H as (_ & Hsub & _).
    eapply lookup_weaken; eassumption.
  - intros p content. unfold read_text.
    destruct (stat st p) as [[|c]|] eqn:E; try discriminate.
    intros [= ->]. now rewrite (stat_extends _ _ _ _ H E).
  - destruct H as (_ & _ & evs & -> & Hw).
    rewrite drop_app_length. exact Hw.
Qed.

Lemma C9_existing_files_unchanged_witness :
  (forall l content,
     nodes with_empty_notes !! l = Some (File content) ->
     nodes (snd (create_scaffold proj notes_then_new out false false
                   (Some (u "hello")) with_empty_notes)) !! l
     = Some (File content))
  /\ (forall p content,
        read_text with_empty_notes p = Some content ->
        read_text (snd (create_scaffold proj notes_then_new out false false
                          (Some (u "hello")) with_empty_notes)) p
        = Some content)
  /\ (forall l content,
        Write l content
          ∈ drop (length (oplog with_empty_notes))
                 (oplog (snd (create_scaffold proj notes_then_new out false
                                false (Some (u "hello")) with_empty_notes))) ->
        nodes with_empty_notes !! l = None).
Proof.
  apply (C9_existing_files_unchanged proj notes_then_new out
           (Some (u "hello"))
           (fst (create_scaffold proj notes_then_new out false false
                   (Some (u "hello")) with_empty_notes))
           with_empty_notes).
  vm_compute. reflexivity.
Defined.

(** C10, as the specification words it, fails: with the same three arguments
    a run is aborted where the root exists as a regular file and returns its
    action list where it does not. *)
Lemma C10_outcome_depends_on_state : ~ actions_independent_as_stated.
Proof.
  intros H.
  specialize (H proj tree_entries out false false None blocked
                false false None fresh).
  vm_compute in H. discriminate.
Qed.

(** C10, amended. Every invocation that returns, returns the action list
    that [root], [entries] and [base_root] determine, whatever the flags, the
    default content and the state; in it every file entry has its touch
    action, written or not. *)
Theorem C10_actions_determined (root : Path) (entries : list entry)
    (base_root : Path) (dry force : bool) (dfc : option str)
    (acts : list action) (st st' : fs) :
  create_scaffold root entries base_root dry force dfc st = (Ok acts, st') ->
  acts = planned_actions root entries base_root
  /\ forall i rel,
       entries !! i = Some (rel, false) ->
       acts !! S i
       = Some (u "touch",
               path_str (path_div (path_div base_root root) (Path_of rel))).
Proof.
  intros H. apply create_scaffold_actions in H as ->. split; [reflexivity|].
  intros i rel Hi. unfold planned_actions. simpl.
  rewrite list_lookup_fmap, Hi. reflexivity.
Qed.

Lemma C10_actions_determined_witness :
  [(u "mkdir", u "/out/root"); (u "touch", u "/out/root/notes.txt")]
  = planned_actions proj [(u "notes.txt", false)] out
  /\ forall i rel,
       [(u "notes.txt", false)] !! i = Some (rel, false) ->
       [(u "mkdir", u "/out/root"); (u "touch", u "/out/root/notes.txt")]
         !! S i
       = Some (u "touch",
               path_str (path_div (path_div out proj) (Path_of rel))).
Proof.
  apply (C10_actions_determined proj [(u "notes.txt", false)] out false false
           (Some (u "hello"))
           [(u "mkdir", u "/out/root"); (u "touch", u "/out/root/notes.txt")]
           with_notes with_notes).
  vm_compute. reflexivity.
Defined.

(** * Further properties *)

(** ** The tree parser: when it raises, and what it returns *)

Lemma drop_while_head (p : N -> bool) (s : str) (c : N) (t : str) :
  drop_while p s = c :: t -> p c = false.
Proof.
  induction s as [|x s IH]; simpl; [discriminate|].
  destruct (p x) eqn:E; [exact IH|]. now intros [= <- _].
Qed.

Lemma forallb_rev (p : N -> bool) (s : str) :
  forallb p (rev s) = forallb p s.
Proof.
  induction s as [|x s IH]; simpl; [reflexivity|].
  rewrite forallb_app, IH. simpl. rewrite andb_true_r. apply andb_comm.
Qed.

(** A trimmed string made of trimmed characters only is empty. *)
Lemma strip_by_all (p : N -> bool) (s : str) :
  forallb p (strip_by p s) = true -> strip_by p s = [].
Proof.
  unfold strip_by, rstrip_by.
  destruct (drop_while p (rev (lstrip_by p s))) as [|c t] eqn:E;
    [reflexivity|].
  rewrite forallb_rev. simpl. rewrite (drop_while_head _ _ _ _ E).
  discriminate.
Qed.

Lemma split_ws_aux_nil (cur s : str) :
  split_ws_aux cur s = [] -> cur = [] /\ forallb isspace s = true.
Proof.
  revert cur. induction s as [|c s IH]; intros cur; simpl.
  - destruct cur; [auto|discriminate].
  - destruct (isspace c).
    + destruct cur; [|discriminate]. intros H. apply IH in H as [_ H]. auto.
    + intros H. apply IH in H as [? _]. discriminate.
Qed.

Lemma root_of_line_raises (first : str) :
  is_empty (root_core first) = true -> root_of_line first = Raise IndexError.
Proof.
  unfold root_of_line. fold (root_core first).
  destruct (root_core first); [reflexivity|discriminate].
Qed.

Lemma root_of_line_returns (first : str) :
  is_empty (root_core first) = false ->
  exists root, root_of_line first = Ok root.
Proof.
  unfold root_of_line. fold (root_core first). intros Hne.
  destruct (split_ws (root_core first)) as [|t ts] eqn:E.
  - apply split_ws_aux_nil in E as [_ E]. unfold root_core, strip in E, Hne.
    apply strip_by_all in E. rewrite E in Hne. discriminate.
  - unfold last_item. destruct (last (t :: ts)) as [x|] eqn:L.
    + simpl. eauto.
    + apply last_None in L. discriminate.
Qed.

Lemma pop_to_depth_only_IndexError (n : nat) (stack : list str) (depth : nat)
    (e : exn) :
  pop_to_depth n stack depth = Raise e -> e = IndexError.
Proof.
  revert stack. induction n as [|n IH]; intros stack; simpl;
    destruct (depth <=? length stack); try discriminate.
  - now intros [= <-].
  - apply IH.
Qed.

Lemma pop_to_depth_zero (n : nat) (stack : list str) :
  pop_to_depth n stack 0 = Raise IndexError.
Proof.
  revert stack. induction n as [|n IH]; intros stack; simpl; [reflexivity|].
  apply IH.
Qed.

Lemma pop_to_depth_length (n : nat) (stack : list str) (depth : nat)
    (stack' : list str) :
  pop_to_depth n stack depth = Ok stack' -> length stack' < depth.
Proof.
  revert stack. induction n as [|n IH]; intros stack; simpl;
    destruct (depth <=? length stack) eqn:E; try discriminate.
  - intros [= <-]. apply Nat.leb_gt in E. exact E.
  - apply IH.
  - intros [= <-]. apply Nat.leb_gt in E. exact E.
Qed.

Lemma lookahead_step_returns (lines : list str) (ln : str) (flag : bool) :
  ln ∈ lines ->
  exists b,
    (if negb flag return result bool
     then infer_by_lookahead lines ln (indent_of ln)
     else Ok true) = Ok b
    /\ (flag = true -> b = true)
    /\ (flag = false -> infer_by_lookahead lines ln (indent_of ln) = Ok b).
Proof.
  intros Hin. destruct flag; simpl.
  - exists true. repeat split; auto. discriminate.
  - unfold infer_by_lookahead.
    destruct (index_of_member _ _ Hin) as [i ->]. simpl.
    destruct (i + 1 <? length lines); eexists; repeat split; auto;
      discriminate.
Qed.

(** One step of the loop, by cases on the line. *)
Lemma process_line_cases (lines : list str) (entries : list entry)
    (stack : list str) (ln : str) :
  ln ∈ lines ->
  (has_name ln = false /\
   process_line lines (entries, stack) ln = Ok (entries, stack))
  \/ (unconnected ln = true /\
      process_line lines (entries, stack) ln = Raise IndexError)
  \/ (has_name ln = true /\ unconnected ln = false /\
      exists e stack',
        process_line lines (entries, stack) ln = Ok (entries ++ [e], stack')
        /\ entry_of_line lines ln e).
Proof.
  intros Hin. unfold unconnected, has_name, process_line.
  destruct (entry_text ln) as [s|] eqn:Hs; [|left; auto].
  right. simpl.
  destruct (lookahead_step_returns lines ln
              (endswith s [SLASH] || endswith s os_sep) Hin)
    as (b & -> & Hb1 & Hb2).
  simpl. unfold os_sep in *. rewrite orb_diag in Hb1, Hb2.
  destruct (tree_depth_of ln (indent_of ln)) as [|k] eqn:Hd.
  - left. split; [reflexivity|]. now rewrite pop_to_depth_zero.
  - right. split; [reflexivity|]. split; [reflexivity|].
    destruct (pop_to_depth_returns (length stack) stack (S k))
      as [stack' Hpop]; [lia|reflexivity|].
    rewrite Hpop. simpl.
    eexists. eexists. split; [reflexivity|].
    exists s, stack'. split; [exact Hs|]. split.
    { simpl. destruct stack'; reflexivity. }
    split; [rewrite Hd; apply (pop_to_depth_length _ _ _ _ Hpop)|].
    split; assumption.
Qed.

Lemma parse_loop_cons (lines : list str) (st : pstate) (ln : str)
    (todo : list str) :
  parse_loop lines st (ln :: todo)
  = match process_line lines st ln with
    | Ok st' => parse_loop lines st' todo
    | Raise e => Raise e
    end.
Proof. reflexivity. Qed.

Lemma parse_loop_cases (lines todo : list str) (entries : list entry)
    (stack : list str) :
  (forall ln, ln ∈ todo -> ln ∈ lines) ->
  ((exists ln, ln ∈ todo /\ unconnected ln = true) /\
   parse_loop lines (entries, stack) todo = Raise IndexError)
  \/ ((forall ln, ln ∈ todo -> unconnected ln = false) /\
      exists new stack',
        parse_loop lines (entries, stack) todo = Ok (entries ++ new, stack')
        /\ Forall2 (entry_of_line lines) (List.filter has_name todo) new).
Proof.
  revert entries stack. induction todo as [|ln todo IH];
    intros entries stack Hsub.
  - right. split; [intros ln H; inversion H|].
    exists [], stack. simpl. rewrite app_nil_r. split; [reflexivity|].
    constructor.
  - assert (Hin : ln ∈ lines) by (apply Hsub; left).
    assert (Hsub' : forall l, l ∈ todo -> l ∈ lines)
      by (intros l Hl; apply Hsub; now right).
    rewrite parse_loop_cons.
    destruct (process_line_cases lines entries stack ln Hin)
      as [[Hn ->] | [[Hu ->] | (Hn & Hu & e & stack1 & -> & He)]];
      simpl List.filter.
    + destruct (IH entries stack Hsub')
        as [[(l & Hl & Hlu) ->] | (Hall & new & stack' & -> & HF)].
      * left. split; [|reflexivity]. exists l. split; [now right|assumption].
      * right. split.
        { intros l Hl. apply elem_of_cons in Hl as [->|Hl]; [|auto].
          unfold unconnected. now rewrite Hn. }
        exists new, stack'. split; [reflexivity|]. now rewrite Hn.
    + left. split; [|reflexivity]. exists ln. split; [left|assumption].
    + destruct (IH (entries ++ [e]) stack1 Hsub')
        as [[(l & Hl & Hlu) ->] | (Hall & new & stack' & -> & HF)].
      * left. split; [|reflexivity]. exists l. split; [now right|assumption].
      * right. split.
        { intros l Hl. apply elem_of_cons in Hl as [->|Hl]; auto. }
        exists (e :: new), stack'. rewrite <- app_assoc. split; [reflexivity|].
        rewrite Hn. now constructor.
Qed.

(** X1. On a non-empty sequence the parser raises exactly when the root line
    is left without a token, or a later line has an entry and no connector
    among the characters that [tree_depth] counts; the exception is always
    [IndexError]. *)
Theorem parser_raises_iff (first : str) (rest : list str) :
  (normalize_root_and_entries (first :: rest) = Raise IndexError
   <-> is_empty (root_core first) = true
       \/ exists ln, ln ∈ rest /\ unconnected ln = true)
  /\ forall e,
       normalize_root_and_entries (first :: rest) = Raise e -> e = IndexError.
Proof.
  assert (Hsub : forall ln, ln ∈ rest -> ln ∈ first :: rest)
    by (intros ln H; now right).
  unfold normalize_root_and_entries.
  destruct (is_empty (root_core first)) eqn:Hroot.
  { rewrite (root_of_line_raises _ Hroot). simpl. split.
    - split; auto.
    - now intros e [= <-]. }
  destruct (root_of_line_returns _ Hroot) as [root ->]. simpl.
  destruct (parse_loop_cases (first :: rest) rest [] [] Hsub)
    as [[Hex ->] | (Hall & new & stack' & -> & _)]; simpl.
  - split; [split; auto|]. now intros e [= <-].
  - split; [|discriminate]. split; [discriminate|].
    intros [? | (ln & Hin & Hu)]; [discriminate|].
    rewrite (Hall ln Hin) in Hu. discriminate.
Qed.

Lemma parser_raises_iff_witness :
  normalize_root_and_entries plain_lines = Raise IndexError.
Proof.
  apply (proj2 (proj1 (parser_raises_iff (u "root/") [u "  src/"]))).
  right. exists (u "  src/"). split; [left|vm_compute; reflexivity].
Defined.

(** X2. When the parser returns, its entries are, in order, one for each line
    after the first that has an entry; lines that are empty after the
    clean-up or hold only a comment give none. The path of an entry is the
    name of its line below fewer ancestors than the line has connectors; a
    name with a trailing separator is a directory, and any other name is a
    directory exactly when the lookahead from the first line of equal text
    says so. *)
Theorem entries_follow_named_lines
    (lines : list str) (root : Path) (entries : list entry) :
  normalize_root_and_entries lines = Ok (root, entries) ->
  Forall2 (entry_of_line lines) (List.filter has_name (tl lines)) entries.
Proof.
  destruct lines as [|first rest]; simpl.
  { intros [= _ <-]. constructor. }
  destruct (root_of_line first) as [root'|]; [|discriminate]. simpl.
  destruct (parse_loop_cases (first :: rest) rest [] [])
    as [[_ ->] | (_ & new & stack' & -> & HF)]; simpl.
  - intros ln H. now right.
  - discriminate.
  - now intros [= _ <-].
Qed.

Lemma entries_follow_named_lines_witness :
  Forall2 (entry_of_line tree_lines) (List.filter has_name (tl tree_lines))
          [(u "a", true); (u "a/b.txt", false); (u "c.txt", false)].
Proof.
  apply (entries_follow_named_lines tree_lines (Path_of (u "root"))).
  vm_compute. reflexivity.
Defined.

(** ** The line filter *)

Lemma take_drop_while (p : N -> bool) (s : str) :
  take_while p s ++ drop_while p s = s.
Proof.
  induction s as [|c s IH]; simpl; [reflexivity|].
  destruct (p c); simpl; [now rewrite IH|reflexivity].
Qed.

Lemma forallb_take_while (p : N -> bool) (s : str) :
  forallb p (take_while p s) = true.
Proof.
  induction s as [|c s IH]; simpl; [reflexivity|].
  destruct (p c) eqn:E; simpl; [now rewrite E|reflexivity].
Qed.

Lemma drop_while_nil (p : N -> bool) (s : str) :
  drop_while p s = [] <-> forallb p s = true.
Proof.
  induction s as [|c s IH]; simpl; [tauto|].
  destruct (p c); simpl; [exact IH|]. split; discriminate.
Qed.

Lemma drop_while_idem (p : N -> bool) (s : str) :
  drop_while p (drop_while p s) = drop_while p s.
Proof.
  induction s as [|c s IH]; simpl; [reflexivity|].
  destruct (p c) eqn:E; [exact IH|]. simpl. now rewrite E.
Qed.

(** What [rstrip] removes is a run of trimmed characters at the end. *)
Lemma rstrip_by_split (p : N -> bool) (s : str) :
  exists w, s = rstrip_by p s ++ w /\ forallb p w = true.
Proof.
  exists (rev (take_while p (rev s))). split.
  - unfold rstrip_by. rewrite <- rev_app_distr, take_drop_while.
    now rewrite rev_involutive.
  - rewrite forallb_rev. apply forallb_take_while.
Qed.

Lemma rstrip_by_idem (p : N -> bool) (s : str) :
  rstrip_by p (rstrip_by p s) = rstrip_by p s.
Proof.
  unfold rstrip_by. now rewrite rev_involutive, drop_while_idem.
Qed.

Lemma is_empty_rev (s : str) : is_empty (rev s) = is_empty s.
Proof.
  destruct s as [|c s]; [reflexivity|]. simpl. destruct (rev s); reflexivity.
Qed.

Lemma is_empty_strip (s : str) :
  is_empty (strip s) = true <-> forallb isspace s = true.
Proof.
  unfold strip, strip_by, rstrip_by, lstrip_by. split.
  - rewrite is_empty_rev. intros H.
    destruct (drop_while isspace (rev (drop_while isspace s))) eqn:E;
      [|discriminate].
    apply drop_while_nil in E. rewrite forallb_rev in E.
    destruct (drop_while isspace s) as [|c t] eqn:D.
    + now apply drop_while_nil.
    + apply drop_while_head in D. simpl in E. rewrite D in E. discriminate.
  - intros H. apply drop_while_nil in H. rewrite H. reflexivity.
Qed.

Lemma startswith_all (p : N -> bool) (w sub : str) :
  forallb p w = true -> startswith w sub = true -> forallb p sub = true.
Proof.
  revert sub. induction w as [|c w IH]; intros [|x sub]; simpl; auto;
    try discriminate.
  intros Hw Hs. apply andb_true_iff in Hw as [Hc Hw].
  apply andb_true_iff in Hs as [Hx Hs]. apply N.eqb_eq in Hx. subst x.
  now rewrite Hc, (IH sub).
Qed.

(** A match that ends in a character that is not trimmed lies before the
    trimmed run. *)
Lemma startswith_before_run (p : N -> bool) (a w sub : str) (c : N) :
  forallb p w = true -> last sub = Some c -> p c = false ->
  startswith (a ++ w) sub = true -> startswith a sub = true.
Proof.
  intros Hw. revert sub. induction a as [|x a IH]; intros sub Hl Hc Hs.
  - simpl in Hs. pose proof (startswith_all _ _ _ Hw Hs) as Hall.
    apply last_Some in Hl as [sub' ->]. rewrite forallb_app in Hall.
    simpl in Hall. rewrite Hc, andb_false_r in Hall. discriminate.
  - destruct sub as [|y sub]; [discriminate|]. simpl in *.
    apply andb_true_iff in Hs as [Hx Hs]. rewrite Hx. simpl.
    destruct sub as [|z sub]; [destruct a; reflexivity|].
    apply (IH (z :: sub)); auto.
Qed.

Lemma contains_before_run (p : N -> bool) (a w sub : str) (c : N) :
  forallb p w = true -> last sub = Some c -> p c = false ->
  contains (a ++ w) sub = true -> contains a sub = true.
Proof.
  intros Hw Hl Hc. induction a as [|x a IH]; intros H.
  - exfalso. clear -Hw Hl Hc H. simpl app in H.
    induction w as [|y w IHw].
    + destruct sub; [discriminate|]. simpl in H. discriminate.
    + simpl in Hw. apply andb_true_iff in Hw as [Hy Hw].
      change (contains (y :: w) sub)
        with (startswith (y :: w) sub || contains w sub) in H.
      apply orb_true_iff in H as [H|H]; [|auto].
      assert (Hall : forallb p (y :: w) = true) by (simpl; now rewrite Hy).
      pose proof (startswith_all _ _ _ Hall H) as Hs.
      apply last_Some in Hl as [sub' ->]. rewrite forallb_app in Hs.
      simpl in Hs. rewrite Hc, andb_false_r in Hs. discriminate.
  - change (contains ((x :: a) ++ w) sub)
      with (startswith ((x :: a) ++ w) sub || contains (a ++ w) sub) in H.
    change (contains (x :: a) sub)
      with (startswith (x :: a) sub || contains a sub).
    apply orb_true_iff in H as [H|H]; apply orb_true_iff.
    + left. eapply startswith_before_run; eauto.
    + right. auto.
Qed.

Lemma contains_rstrip (s sub : str) (c : N) :
  last sub = Some c -> isspace c = false ->
  contains s sub = true -> contains (rstrip s) sub = true.
Proof.
  intros Hl Hc H. destruct (rstrip_by_split isspace s) as (w & Hs & Hw).
  rewrite Hs in H. eapply contains_before_run; eauto.
Qed.

Lemma is_tree_line_rstrip (ln : str) :
  is_tree_line ln = true -> is_tree_line (rstrip ln) = true.
Proof.
  unfold is_tree_line.
  destruct (is_empty (strip ln)) eqn:E; [discriminate|].
  destruct (is_empty (strip (rstrip ln))) eqn:E'.
  { apply is_empty_strip in E'.
    destruct (rstrip_by_split isspace ln) as (w & Hs & Hw).
    assert (Hall : forallb isspace ln = true).
    { rewrite Hs, forallb_app. unfold rstrip in E'. now rewrite E', Hw. }
    apply is_empty_strip in Hall. congruence. }
  simpl existsb. rewrite !orb_false_r, !orb_true_iff.
  intros H.
  repeat match goal with
         | H : _ \/ _ |- _ => destruct H as [H|H]
         end;
    (eapply contains_rstrip in H; [|reflexivity|reflexivity]);
    rewrite H; tauto.
Qed.

Lemma splitlines_aux_no_break (after_cr : bool) (cur s : str) :
  forallb (fun c => negb (is_linebreak c)) cur = true ->
  Forall (fun ln => forallb (fun c => negb (is_linebreak c)) ln = true)
         (splitlines_aux after_cr cur s).
Proof.
  revert after_cr cur. induction s as [|c s IH]; intros after_cr cur Hcur;
    simpl.
  - destruct cur; constructor; [|constructor].
    now rewrite forallb_rev.
  - destruct (after_cr && (c =? NL)%N); [now apply IH|].
    destruct (is_linebreak c) eqn:E.
    + constructor; [now rewrite forallb_rev|]. now apply IH.
    + apply IH. simpl. now rewrite E.
Qed.

Lemma parse_tree_lines_facts (block : str) :
  Forall (fun ln =>
            is_tree_line ln = true /\ rstrip ln = ln
            /\ is_empty (strip ln) = false
            /\ forallb (fun c => negb (is_linebreak c)) ln = true)
         (parse_tree_lines block).
Proof.
  unfold parse_tree_lines. apply Forall_forall. intros ln Hin.
  apply list_elem_of_fmap in Hin as (l & -> & Hl).
  apply list_elem_of_In, filter_In in Hl as [Hl Ht].
  pose proof (is_tree_line_rstrip _ Ht) as Ht'.
  split; [exact Ht'|]. split; [apply rstrip_by_idem|]. split.
  - unfold is_tree_line in Ht'.
    destruct (is_empty (strip (rstrip l))); [discriminate|reflexivity].
  - assert (Hnb : forallb (fun c => negb (is_linebreak c)) l = true).
    { pose proof (splitlines_aux_no_break false [] block eq_refl) as HF.
      rewrite Forall_forall in HF. apply HF. now apply list_elem_of_In. }
    destruct (rstrip_by_split isspace l) as (w & Hs & _).
    rewrite Hs, forallb_app in Hnb. apply andb_true_iff in Hnb as [H _].
    exact H.
Qed.

(** X3. Every line that [parse_tree_lines] returns passes the line filter,
    has no whitespace at its end, is not blank and holds no line boundary. *)
Theorem parse_tree_lines_are_candidates (block : str) :
  Forall (fun ln =>
            is_tree_line ln = true /\ rstrip ln = ln
            /\ is_empty (strip ln) = false
            /\ forallb (fun c => negb (is_linebreak c)) ln = true)
         (parse_tree_lines block).
Proof. apply parse_tree_lines_facts. Qed.

(** X4. On the lines that [parse_tree_lines] returns, when no two of them are
    equal, the lookahead for the line at position [i] is decided by the line
    at position [i + 1] alone: it says directory exactly when that line
    exists and has a longer leading run of whitespace and vertical bars. *)
Theorem lookahead_on_candidate_lines (block : str) (i : nat) (ln : str) :
  NoDup (parse_tree_lines block) ->
  parse_tree_lines block !! i = Some ln ->
  infer_by_lookahead (parse_tree_lines block) ln (indent_of ln)
  = Ok (match parse_tree_lines block !! S i with
        | Some next_ln => indent_of ln <? indent_of next_ln
        | None => false
        end).
Proof.
  intros Hnd Hi.
  rewrite (lookahead_from_position _ i ln Hnd); [|  |exact Hi].
  - f_equal. unfold spec_is_dir_by_lookahead. rewrite Hi.
    replace (S i) with (i + 1 + 0) by lia. rewrite <- lookup_drop.
    destruct (drop (i + 1) (parse_tree_lines block)) as [|nxt rest];
      [reflexivity|].
    simpl. destruct (indent_of ln <? indent_of nxt) eqn:E; [reflexivity|].
    apply Nat.ltb_ge in E. apply Nat.leb_le in E. now rewrite E.
  - eapply Forall_impl; [apply parse_tree_lines_facts|].
    intros l (_ & _ & H & _). exact H.
Qed.

Lemma lookahead_on_candidate_lines_witness :
  infer_by_lookahead (parse_tree_lines small_block)
    ([TEE; DASH; DASH; SP] ++ u "a")
    (indent_of ([TEE; DASH; DASH; SP] ++ u "a"))
  = Ok (match parse_tree_lines small_block !! 2 with
        | Some next_ln =>
            indent_of ([TEE; DASH; DASH; SP] ++ u "a") <? indent_of next_ln
        | None => false
        end).
Proof.
  apply (lookahead_on_candidate_lines small_block 1).
  - apply (bool_decide_unpack _). vm_compute. exact I.
  - vm_compute. reflexivity.
Defined.

(** ** The block extractor: which block is chosen *)

Lemma insert_by_len_elem (x y : str) (l : list str) :
  y ∈ insert_by_len x l <-> y = x \/ y ∈ l.
Proof.
  induction l as [|z l IH]; simpl.
  - rewrite list_elem_of_singleton. split; [auto|].
    intros [?|H]; [assumption|inversion H].
  - destruct (length z <=? length x).
    + rewrite elem_of_cons. tauto.
    + rewrite !elem_of_cons, IH. tauto.
Qed.

Lemma sorted_by_len_desc_elem (y : str) (l : list str) :
  y ∈ sorted_by_len_desc l <-> y ∈ l.
Proof.
  induction l as [|x l IH]; simpl; [tauto|].
  rewrite insert_by_len_elem, elem_of_cons, IH. tauto.
Qed.

Lemma insert_by_len_sorted (x : str) (l : list str) :
  StronglySorted (fun a b => length b <= length a) l ->
  StronglySorted (fun a b => length b <= length a) (insert_by_len x l).
Proof.
  induction 1 as [|z l Hs IH Hz]; simpl.
  - repeat constructor.
  - destruct (length z <=? length x) eqn:E.
    + apply Nat.leb_le in E. constructor; [now constructor|].
      constructor; [exact E|].
      eapply Forall_impl; [exact Hz|]. simpl. intros. lia.
    + apply Nat.leb_gt in E. constructor; [exact IH|].
      apply Forall_forall. intros y Hy. apply insert_by_len_elem in Hy.
      destruct Hy as [->|Hy]; [lia|].
      rewrite Forall_forall in Hz. now apply Hz.
Qed.

Lemma sorted_by_len_desc_sorted (l : list str) :
  StronglySorted (fun a b => length b <= length a) (sorted_by_len_desc l).
Proof.
  induction l as [|x l IH]; simpl; [constructor|].
  now apply insert_by_len_sorted.
Qed.

(** The first element that passes a test in a list sorted by decreasing
    length is a longest one that passes. *)
Lemma find_in_sorted (f : str -> bool) (l : list str) (b : str) :
  StronglySorted (fun a b => length b <= length a) l ->
  List.find f l = Some b ->
  b ∈ l /\ f b = true
  /\ forall b', b' ∈ l -> f b' = true -> length b' <= length b.
Proof.
  induction 1 as [|z l Hs IH Hz]; simpl; [discriminate|].
  destruct (f z) eqn:E.
  - intros [= <-]. split; [left|]. split; [exact E|].
    intros b' Hb' _. apply elem_of_cons in Hb' as [->|Hb']; [lia|].
    rewrite Forall_forall in Hz. now apply Hz.
  - intros H. destruct (IH H) as (Hin & Hf & Hmax).
    split; [now right|]. split; [exact Hf|].
    intros b' Hb' Hfb'. apply elem_of_cons in Hb' as [->|Hb']; [congruence|].
    now apply Hmax.
Qed.

Lemma find_none_all (f : str -> bool) (l : list str) :
  List.find f l = None -> forall b, b ∈ l -> f b = false.
Proof.
  induction l as [|z l IH]; simpl; intros H b Hb; [inversion Hb|].
  destruct (f z) eqn:E; [discriminate|].
  apply elem_of_cons in Hb as [->|Hb]; auto.
Qed.

(** X5. When the input has fenced blocks, the block returned is one of them,
    trimmed: a longest one among those that hold a tree character, a space
    followed by a slash, or a backslash; and when none does, a longest one of
    all. *)
Theorem extract_prefers_longest_tree_block (markdown : str) :
  findall_fences 0 markdown <> [] ->
  exists b,
    b ∈ findall_fences 0 markdown
    /\ extract_tree_block markdown = strip b
    /\ ((looks_like_tree b = true
         /\ forall b', b' ∈ findall_fences 0 markdown ->
                       looks_like_tree b' = true -> length b' <= length b)
        \/ ((forall b', b' ∈ findall_fences 0 markdown ->
                        looks_like_tree b' = false)
            /\ forall b', b' ∈ findall_fences 0 markdown ->
                          length b' <= length b)).
Proof.
  intros Hne. unfold extract_tree_block.
  destruct (findall_fences 0 markdown) as [|f0 fs] eqn:E; [congruence|].
  set (fences := f0 :: fs) in *.
  pose proof (sorted_by_len_desc_sorted fences) as Hsorted.
  destruct (List.find looks_like_tree (sorted_by_len_desc fences))
    as [b|] eqn:F.
  - destruct (find_in_sorted _ _ _ Hsorted F) as (Hin & Hf & Hmax).
    exists b. split; [now apply sorted_by_len_desc_elem|].
    split; [reflexivity|]. left. split; [exact Hf|].
    intros b' Hb'. apply Hmax. now apply sorted_by_len_desc_elem.
  - pose proof (find_none_all _ _ F) as Hnone.
    destruct (sorted_by_len_desc fences) as [|h t] eqn:S.
    + exfalso. assert (H : f0 ∈ sorted_by_len_desc fences)
        by (apply sorted_by_len_desc_elem; left).
      rewrite S in H. inversion H.
    + exists h. split; [apply sorted_by_len_desc_elem; rewrite S; left|].
      split; [reflexivity|]. right. split.
      * intros b' Hb'. apply Hnone. rewrite <- S.
        now apply sorted_by_len_desc_elem.
      * intros b' Hb'. apply sorted_by_len_desc_elem in Hb'.
        rewrite S in Hb'. inversion Hsorted as [|? ? _ Hh]; subst.
        apply elem_of_cons in Hb' as [->|Hb']; [lia|].
        rewrite Forall_forall in Hh. now apply Hh.
Qed.

Lemma extract_prefers_longest_tree_block_witness :
  exists b,
    b ∈ findall_fences 0 two_blocks
    /\ extract_tree_block two_blocks = strip b
    /\ ((looks_like_tree b = true
         /\ forall b', b' ∈ findall_fences 0 two_blocks ->
                       looks_like_tree b' = true -> length b' <= length b)
        \/ ((forall b', b' ∈ findall_fences 0 two_blocks ->
                        looks_like_tree b' = false)
            /\ forall b', b' ∈ findall_fences 0 two_blocks ->
                          length b' <= length b)).
Proof.
  apply (extract_prefers_longest_tree_block two_blocks).
  vm_compute. discriminate.
Defined.

(** ** The block extractor: what a fenced block is *)

Lemma startswith_app (a b sub : str) :
  startswith a sub = true -> startswith (a ++ b) sub = true.
Proof.
  revert sub. induction a as [|c a IH]; intros [|x sub]; simpl; auto.
  - destruct b; reflexivity.
  - discriminate.
  - intros H. apply andb_true_iff in H as [-> H]. simpl. now apply IH.
Qed.

Lemma startswith_self_app (x post : str) : startswith (x ++ post) x = true.
Proof.
  induction x as [|c x IH]; simpl; [destruct post; reflexivity|].
  now rewrite N.eqb_refl.
Qed.

Lemma startswith_skipn (s pre : str) :
  startswith s pre = true -> s = pre ++ skipn (length pre) s.
Proof.
  revert s. induction pre as [|p pre IH]; intros [|c s]; simpl; auto;
    try discriminate.
  intros H. apply andb_true_iff in H as [Hc H]. apply N.eqb_eq in Hc.
  subst. f_equal. now apply IH.
Qed.

Lemma contains_mid (pre x post : str) : contains (pre ++ x ++ post) x = true.
Proof.
  induction pre as [|c pre IH].
  - simpl app. pose proof (startswith_self_app x post) as H.
    destruct (x ++ post) as [|a l];
      [change (contains [] x) with (startswith [] x || false)
      |change (contains (a :: l) x)
         with (startswith (a :: l) x || contains l x)];
      now rewrite H.
  - change (contains ((c :: pre) ++ x ++ post) x)
      with (startswith ((c :: pre) ++ x ++ post) x
            || contains (pre ++ x ++ post) x).
    rewrite IH. apply orb_true_r.
Qed.

Lemma until_fence_spec (s g rest : str) :
  until_fence s = Some (g, rest) ->
  s = g ++ FENCE ++ rest /\ contains g FENCE = false.
Proof.
  revert g. induction s as [|c s IH]; intros g.
  - simpl. discriminate.
  - change (until_fence (c :: s))
      with (if startswith (c :: s) FENCE then Some ([], skipn 3 (c :: s))
            else match until_fence s with
                 | Some (g, rest) => Some (c :: g, rest)
                 | None => None
                 end).
    destruct (startswith (c :: s) FENCE) eqn:E.
    + intros [= <- <-]. split; [|reflexivity].
      now apply (startswith_skipn (c :: s) FENCE).
    + destruct (until_fence s) as [[g' rest']|]; [|discriminate].
      intros [= <- <-]. destruct (IH g' eq_refl) as [Hs Hg]. split.
      * simpl. now rewrite Hs.
      * change (contains (c :: g') FENCE)
          with (startswith (c :: g') FENCE || contains g' FENCE).
        rewrite Hg, orb_false_r.
        destruct (startswith (c :: g') FENCE) eqn:E'; [|reflexivity].
        apply (startswith_app _ (FENCE ++ rest')) in E'.
        rewrite Hs in E.
        change ((c :: g') ++ FENCE ++ rest')
          with (c :: g' ++ FENCE ++ rest') in E'.
        congruence.
Qed.

Lemma match_fence_spec (s g rest : str) :
  match_fence s = Some (g, rest) ->
  exists pre, s = pre ++ g ++ FENCE ++ rest /\ contains g FENCE = false.
Proof.
  unfold match_fence. destruct (startswith s FENCE) eqn:E; [|discriminate].
  apply startswith_skipn in E. simpl length in E.
  pose proof (take_drop_while is_tag_char (skipn 3 s)) as Htag.
  destruct (drop_while is_tag_char (skipn 3 s)) as [|c s'] eqn:D;
    [discriminate|].
  destruct (c =? NL)%N; [|discriminate]. intros H.
  apply until_fence_spec in H as [Hs Hg].
  remember (take_while is_tag_char (skipn 3 s)) as tag eqn:Ht. clear Ht.
  exists (FENCE ++ tag ++ [c]). split; [|exact Hg].
  rewrite E at 1. rewrite <- Htag, Hs. simpl. now rewrite <- !app_assoc.
Qed.

Lemma findall_fences_spec (pre0 s : str) (skip : nat) :
  Forall (fun b => contains b FENCE = false
                   /\ contains (pre0 ++ s) (b ++ FENCE) = true)
         (findall_fences skip s).
Proof.
  revert pre0 skip. induction s as [|c s IH]; intros pre0 skip;
    [constructor|].
  assert (Hnext : forall k,
            Forall (fun b => contains b FENCE = false
                             /\ contains (pre0 ++ c :: s) (b ++ FENCE) = true)
                   (findall_fences k s)).
  { intros k. specialize (IH (pre0 ++ [c]) k).
    now rewrite <- app_assoc in IH. }
  change (findall_fences skip (c :: s)) with
    (match skip with
     | S k => findall_fences k s
     | 0 => match match_fence (c :: s) with
            | Some (g, rest) =>
                g :: findall_fences (length (c :: s) - length rest - 1) s
            | None => findall_fences 0 s
            end
     end).
  destruct skip as [|k]; [|apply Hnext].
  destruct (match_fence (c :: s)) as [[g rest]|] eqn:M; [|apply Hnext].
  constructor; [|apply Hnext].
  apply match_fence_spec in M as (pre & -> & Hg). split; [exact Hg|].
  rewrite (app_assoc g FENCE rest), (app_assoc pre0 pre).
  apply contains_mid.
Qed.

(** X6. Every fenced block that the extractor finds holds no fence itself,
    and is followed by a fence in the input: a block ends at the first
    fence after its opening line. *)
Theorem fenced_blocks_end_at_first_fence (markdown : str) :
  Forall (fun b => contains b FENCE = false
                   /\ contains markdown (b ++ FENCE) = true)
         (findall_fences 0 markdown).
Proof. apply (findall_fences_spec [] markdown 0). Qed.

(** ** The root line *)

Lemma drop_while_none (p : N -> bool) (s : str) :
  forallb (fun c => negb (p c)) s = true -> drop_while p s = s.
Proof.
  destruct s as [|c s]; simpl; [reflexivity|].
  intros H. apply andb_true_iff in H as [H _].
  now destruct (p c).
Qed.

Lemma strip_by_none (p : N -> bool) (s : str) :
  forallb (fun c => negb (p c)) s = true -> strip_by p s = s.
Proof.
  intros H. unfold strip_by, rstrip_by, lstrip_by.
  rewrite (drop_while_none p s H), drop_while_none.
  - apply rev_involutive.
  - now rewrite forallb_rev.
Qed.

Lemma rstrip_by_none (p : N -> bool) (s : str) :
  forallb (fun c => negb (p c)) s = true -> rstrip_by p s = s.
Proof.
  intros H. unfold rstrip_by. rewrite drop_while_none.
  - apply rev_involutive.
  - now rewrite forallb_rev.
Qed.

Lemma split_ws_aux_one (cur s : str) :
  forallb (fun c => negb (isspace c)) s = true ->
  rev cur ++ s <> [] ->
  split_ws_aux cur s = [rev cur ++ s].
Proof.
  revert cur. induction s as [|c s IH]; intros cur Hs Hne; simpl.
  - rewrite app_nil_r in *. destruct cur; [simpl in Hne; congruence|].
    reflexivity.
  - simpl in Hs. apply andb_true_iff in Hs as [Hc Hs].
    destruct (isspace c); [discriminate|].
    rewrite (IH (c :: cur) Hs); simpl; rewrite <- app_assoc; [reflexivity|].
    destruct (rev cur); discriminate.
Qed.

Lemma remove_chars_none (chars s : str) :
  forallb (fun c => negb (mem c chars)) s = true -> remove_chars chars s = s.
Proof.
  unfold remove_chars. induction s as [|c s IH]; [reflexivity|]. simpl.
  intros H. apply andb_true_iff in H as [Hc H].
  rewrite filter_cons_True by now destruct (mem c chars).
  now rewrite IH.
Qed.

Lemma split_on_none (sep : N) (cur s : str) :
  forallb (fun c => negb (c =? sep)%N) s = true ->
  split_on sep cur s = [rev cur ++ s].
Proof.
  revert cur. induction s as [|c s IH]; intros cur; simpl.
  - now rewrite app_nil_r.
  - intros H. apply andb_true_iff in H as [Hc H].
    destruct (c =? sep)%N; [discriminate|].
    rewrite (IH (c :: cur) H). simpl. now rewrite <- app_assoc.
Qed.

Lemma forallb_weaken (p q : N -> bool) (s : str) :
  (forall c, p c = true -> q c = true) ->
  forallb p s = true -> forallb q s = true.
Proof.
  intros Hpq. induction s as [|c s IH]; simpl; [reflexivity|].
  intros H. apply andb_true_iff in H as [Hc H].
  now rewrite (Hpq c Hc), IH.
Qed.

Lemma Path_of_plain_name (name : str) :
  plain_name name = true -> Path_of name = mkPath [] [name].
Proof.
  unfold plain_name. intros H.
  apply andb_true_iff in H as [H Hall]. apply andb_true_iff in H as [Hne Hdot].
  unfold Path_of.
  assert (Hsep : forallb (fun c => negb (c =? SLASH)%N) name = true).
  { eapply forallb_weaken; [|exact Hall]. intros c Hc.
    apply andb_true_iff in Hc as [_ Hc]. exact Hc. }
  destruct name as [|c name]; [discriminate|].
  simpl splitroot. simpl in Hsep.
  destruct (c =? SLASH)%N eqn:E; [discriminate|].
  rewrite split_on_none by (simpl; now rewrite E).
  simpl. unfold is_part. rewrite Hdot. reflexivity.
Qed.

(** X7. A root line that is a plain name, with or without one trailing
    separator, gives that name as the root: for a name that is not empty, is
    not the dot and holds no whitespace, tree character or separator, the
    root is the one-part relative path of that name. *)
Theorem root_of_plain_name (name : str) :
  plain_name name = true ->
  root_of_line (name ++ [SLASH]) = Ok (mkPath [] [name])
  /\ root_of_line name = Ok (mkPath [] [name])
  /\ path_str (mkPath [] [name]) = name.
Proof.
  intros Hplain. pose proof (Path_of_plain_name _ Hplain) as HP.
  unfold plain_name in Hplain.
  apply andb_true_iff in Hplain as [H Hall].
  apply andb_true_iff in H as [Hne _].
  assert (Hws : forallb (fun c => negb (isspace c)) name = true).
  { eapply forallb_weaken; [|exact Hall]. intros c Hc.
    apply andb_true_iff in Hc as [Hc _]. apply andb_true_iff in Hc as [Hc _].
    exact Hc. }
  assert (Hset : forallb (fun c => negb (mem c (TREE_CHARS ++ [SP]))) name
                 = true).
  { eapply forallb_weaken; [|exact Hall]. intros c Hc.
    apply andb_true_iff in Hc as [Hc _]. apply andb_true_iff in Hc as [Hw Ht].
    unfold mem in *. rewrite existsb_app.
    apply negb_true_iff in Ht. rewrite Ht. simpl.
    destruct (c =? SP)%N eqn:E; [|reflexivity].
    apply N.eqb_eq in E. subst c. discriminate. }
  assert (Hsl : forallb (fun c => negb (mem c [SLASH])) name = true).
  { eapply forallb_weaken; [|exact Hall]. intros c Hc.
    apply andb_true_iff in Hc as [_ Hc]. unfold mem. simpl.
    now rewrite orb_false_r. }
  assert (Hname : name <> []) by (destruct name; [discriminate|congruence]).
  split; [|split].
  - assert (Hws' : forallb (fun c => negb (isspace c)) (name ++ [SLASH])
                   = true) by (rewrite forallb_app, Hws; reflexivity).
    assert (Hset' : forallb (fun c => negb (mem c (TREE_CHARS ++ [SP])))
                      (name ++ [SLASH]) = true)
      by (rewrite forallb_app, Hset; reflexivity).
    unfold root_of_line, strip, strip_chars.
    rewrite !(strip_by_none isspace _ Hws'), (strip_by_none _ _ Hset'),
      !(strip_by_none isspace _ Hws').
    unfold split_ws.
    rewrite (split_ws_aux_one [] _ Hws') by (destruct name; discriminate).
    unfold last_item. simpl last. unfold mbind, result_bind.
    cbv beta iota. rewrite ?app_nil_l.
    rewrite (remove_chars_none _ _ Hset'), (strip_by_none isspace _ Hws').
    unfold rstrip_chars, rstrip_by. rewrite rev_app_distr. simpl.
    rewrite drop_while_none by now rewrite forallb_rev.
    now rewrite rev_involutive, HP.
  - unfold root_of_line, strip, strip_chars.
    rewrite !(strip_by_none isspace _ Hws), (strip_by_none _ _ Hset),
      !(strip_by_none isspace _ Hws).
    unfold split_ws. rewrite (split_ws_aux_one [] _ Hws) by exact Hname.
    unfold last_item. simpl last. unfold mbind, result_bind.
    cbv beta iota. rewrite ?app_nil_l.
    rewrite (remove_chars_none _ _ Hset), (strip_by_none isspace _ Hws).
    unfold rstrip_chars. rewrite (rstrip_by_none _ _ Hsl). now rewrite HP.
  - unfold path_str. simpl. destruct name; [congruence|reflexivity].
Qed.

Lemma root_of_plain_name_witness :
  root_of_line (u "root" ++ [SLASH]) = Ok (mkPath [] [u "root"])
  /\ root_of_line (u "root") = Ok (mkPath [] [u "root"])
  /\ path_str (mkPath [] [u "root"]) = u "root".
Proof.
  apply (root_of_plain_name (u "root")). vm_compute. reflexivity.
Defined.

(** ** The scaffold builder: what a run can change *)

Lemma evolves_refl (data : str) (st : fs) : evolves data st st.
Proof. split; [reflexivity|]. intros l. now left. Qed.

Lemma evolves_trans (data : str) (a b c : fs) :
  evolves data a b -> evolves data b c -> evolves data a c.
Proof.
  intros [C1 H1] [C2 H2]. split; [congruence|]. intros l.
  destruct (H1 l) as [E1 | [[N1 D1] | [N1 F1]]];
    destruct (H2 l) as [E2 | [[N2 D2] | [N2 F2]]].
  - left. congruence.
  - right. left. split; congruence.
  - right. right. split; congruence.
  - right. left. split; congruence.
  - congruence.
  - congruence.
  - right. right. split; congruence.
  - congruence.
  - right. right. split; congruence.
Qed.

Lemma evolves_put_dir (data : str) (st : fs) (l : loc) (ev : event) :
  nodes st !! l = None -> evolves data st (put l Dir ev st).
Proof.
  intros H. split; [reflexivity|]. intros l'. simpl.
  destruct (decide (l = l')) as [<-|Hne].
  - right. left. now rewrite lookup_insert_eq.
  - left. now rewrite lookup_insert_ne.
Qed.

Lemma evolves_put_file (data : str) (st : fs) (l : loc) (ev : event) :
  nodes st !! l <> Some Dir -> evolves data st (put l (File data) ev st).
Proof.
  intros H. split; [reflexivity|]. intros l'. simpl.
  destruct (decide (l = l')) as [<-|Hne].
  - right. right. now rewrite lookup_insert_eq.
  - left. now rewrite lookup_insert_ne.
Qed.

Lemma node_at_dir_evolves (data : str) (st st' : fs) (l : loc) :
  evolves data st st' -> node_at st l = Some Dir -> node_at st' l = Some Dir.
Proof.
  intros [_ H]. destruct l as [|x l]; unfold node_at; [auto|]. intros Hd.
  destruct (H (x :: l)) as [E | [[N _] | [N _]]]; congruence.
Qed.

Lemma node_at_some_evolves (data : str) (st st' : fs) (l : loc) (n : node) :
  evolves data st st' -> node_at st l = Some n ->
  exists n', node_at st' l = Some n'.
Proof.
  intros [_ H]. destruct l as [|x l]; unfold node_at; [eauto|]. intros Hn.
  destruct (H (x :: l)) as [E | [[N _] | [_ F]]]; [|congruence|]; eauto.
  rewrite E. eauto.
Qed.

Lemma walk_evolves (data : str) (st st' : fs) (comps : list str)
    (cur d : loc) :
  evolves data st st' -> walk st cur comps = Ok d -> walk st' cur comps = Ok d.
Proof.
  intros Hev. revert cur. induction comps as [|name comps IH]; intros cur;
    simpl; [auto|].
  destruct (str_eqb name DOTDOT); [apply IH|].
  destruct (node_at st (name :: cur)) as [[|c]|] eqn:E; try discriminate.
  rewrite (node_at_dir_evolves _ _ _ _ Hev E). apply IH.
Qed.

Lemma holder_evolves (data : str) (st st' : fs) (p : Path) (d : loc) :
  evolves data st st' -> holder st p = Ok d -> holder st' p = Ok d.
Proof.
  intros Hev. unfold holder, start_of. destruct (Hev) as [Hc _].
  rewrite <- Hc. now apply (walk_evolves data).
Qed.

Lemma is_dir_evolves (data : str) (st st' : fs) (p : Path) :
  evolves data st st' -> is_dir st p = true -> is_dir st' p = true.
Proof.
  intros Hev. unfold is_dir, stat. destruct (path_error p); [discriminate|].
  destruct (last (p_parts p)) as [name|]; [|auto].
  destruct (holder st p) as [d|] eqn:Hd; [|discriminate].
  rewrite (holder_evolves _ _ _ _ _ Hev Hd). simpl.
  destruct (str_eqb name DOTDOT); [auto|].
  destruct (node_at st (name :: d)) as [[|c]|] eqn:E; try discriminate.
  now rewrite (node_at_dir_evolves _ _ _ _ Hev E).
Qed.

Lemma path_exists_evolves (data : str) (st st' : fs) (p : Path) :
  evolves data st st' -> path_exists st p = true -> path_exists st' p = true.
Proof.
  intros Hev. unfold path_exists, stat.
  destruct (path_error p); [discriminate|].
  destruct (last (p_parts p)) as [name|]; [|auto].
  destruct (holder st p) as [d|] eqn:Hd; [|discriminate].
  rewrite (holder_evolves _ _ _ _ _ Hev Hd). simpl.
  destruct (str_eqb name DOTDOT); [auto|].
  destruct (node_at st (name :: d)) as [n|] eqn:E; [|discriminate].
  destruct (node_at_some_evolves _ _ _ _ _ Hev E) as [n' ->]. reflexivity.
Qed.

Lemma read_default_evolves (data : str) (st st' : fs) (p : Path) :
  evolves data st st' ->
  read_text st p = Some data -> read_text st' p = Some data.
Proof.
  intros Hev. unfold read_text, stat.
  destruct (path_error p); [discriminate|].
  destruct (last (p_parts p)) as [name|]; [|auto].
  destruct (holder st p) as [d|] eqn:Hd; [|discriminate].
  rewrite (holder_evolves _ _ _ _ _ Hev Hd). simpl.
  destruct (str_eqb name DOTDOT); [auto|].
  unfold node_at. destruct Hev as [_ H].
  destruct (H (name :: d)) as [E | [[N _] | [_ F]]].
  - now rewrite E.
  - rewrite N. discriminate.
  - rewrite F. destruct (nodes st !! (name :: d)) as [[|c]|]; auto;
      discriminate.
Qed.

Lemma os_mkdir_evolves (data : str) (p : Path) (st st' : fs)
    (r : result unit) :
  os_mkdir p st = (r, st') -> evolves data st st'.
Proof.
  intros H. apply os_mkdir_cases in H
    as [(name & d & _ & _ & _ & _ & Hn & _ & ->) | (e & _ & ->)].
  - apply evolves_put_dir. exact Hn.
  - apply evolves_refl.
Qed.

Lemma mkdir_here_evolves (data : str) (ok : bool) (p : Path) (st st' : fs)
    (r : result unit) :
  mkdir_here ok p st = (r, st') -> evolves data st st'.
Proof.
  unfold mkdir_here. destruct (os_mkdir p st) as [r0 st0] eqn:E.
  apply (os_mkdir_evolves data) in E. intros H.
  assert (st' = st0) as ->; [|exact E].
  destruct r0 as [|[]]; simpl in H; try (injection H as _ <-; reflexivity);
    destruct (ok && is_dir st0 p); injection H as _ <-; reflexivity.
Qed.

Lemma mkdir_parents_evolves (data : str) (n : nat) (p : Path) (st st' : fs)
    (r : result unit) :
  mkdir_parents n p st = (r, st') -> evolves data st st'.
Proof.
  revert p st st' r. induction n as [|n IH]; intros p st st' r; simpl;
    destruct (os_mkdir p st) as [r0 st0] eqn:E;
    apply (os_mkdir_evolves data) in E; intros H.
  - assert (st' = st0) as ->; [|exact E].
    destruct r0 as [|[]]; simpl in H; try (injection H as _ <-; reflexivity);
      destruct (is_dir st0 p); injection H as _ <-; reflexivity.
  - destruct r0 as [y|e].
    { injection H as _ <-. exact E. }
    destruct e; simpl in H;
      try (injection H as _ <-; exact E);
      try (destruct (is_dir st0 p); injection H as _ <-; exact E).
    destruct (mkdir_parents n (path_parent p) st0) as [r1 st1] eqn:E1.
    apply IH in E1. destruct r1 as [y|e].
    + apply (mkdir_here_evolves data) in H.
      eapply evolves_trans; [exact E|]. eapply evolves_trans; eauto.
    + injection H as _ <-. eapply evolves_trans; eauto.
Qed.

Lemma content_left_ok {A B} (data : str) (a : A) (r : result B) (d : str) :
  content_left data r d -> content_left data (Ok a) d.
Proof. unfold content_left. destruct (utf8_encodable data); auto. Qed.

Lemma content_left_raise {A B} (data : str) (e : exn) (e' : exn) (d : str) :
  content_left data (@Raise A e) d -> content_left data (@Raise B e') d.
Proof. unfold content_left. destruct (utf8_encodable data); auto. Qed.

Lemma write_text_evolves (p : Path) (data d : str) (st st' : fs)
    (r : result unit) :
  write_text p data st = (r, st') -> content_left data r d ->
  evolves d st st'.
Proof.
  intros H Hd. apply write_text_cases in H
    as [(name & l & c & _ & _ & _ & Hn & _ & -> & Hc) | (e & _ & ->)].
  - assert (c = d) as ->.
    { unfold content_left in Hd.
      destruct Hc as [(-> & -> & Henc)|(-> & -> & Henc)];
        rewrite Henc in Hd; auto. }
    apply evolves_put_file. exact Hn.
  - apply evolves_refl.
Qed.

Lemma scaffold_entry_evolves (root_abs : Path) (dry force : bool)
    (dfc : option str) (actions : list action) (e : entry)
    (r : result (list action)) (d : str) (st st' : fs) :
  scaffold_entry root_abs dry force dfc actions e st = (r, st') ->
  content_left (default [] dfc) r d ->
  evolves d st st'.
Proof.
  destruct dry.
  { rewrite scaffold_entry_dry. intros [= _ <-] _. apply evolves_refl. }
  destruct e as [rel [|]].
  - rewrite scaffold_entry_dir.
    destruct (mkdir_p _ st) as [[x|e] st1] eqn:E;
      apply (mkdir_parents_evolves d) in E;
      now intros [= _ <-].
  - rewrite scaffold_entry_file.
    destruct (mkdir_p _ st) as [[x|e] st1] eqn:E;
      apply (mkdir_parents_evolves d) in E;
      [|now intros [= _ <-]].
    destruct (_ && _); [now intros [= _ <-]|].
    destruct (write_text _ _ st1) as [r2 st2] eqn:W. intros H Hd.
    assert (st' = st2) as -> by (destruct r2; now injection H).
    eapply evolves_trans; [exact E|].
    eapply write_text_evolves; [exact W|].
    destruct r2; injection H as <-.
    + eapply content_left_ok. exact Hd.
    + eapply content_left_raise. exact Hd.
Qed.

Lemma scaffold_loop_evolves (root_abs : Path) (dry force : bool)
    (dfc : option str) (entries : list entry) (actions : list action)
    (r : result (list action)) (d : str) (st st' : fs) :
  scaffold_loop root_abs dry force dfc actions entries st = (r, st') ->
  content_left (default [] dfc) r d ->
  evolves d st st'.
Proof.
  revert actions st. induction entries as [|e entries IH]; intros actions st.
  - simpl. intros [= _ <-] _. apply evolves_refl.
  - simpl. unfold mbind, M_bind.
    destruct (scaffold_entry root_abs dry force dfc actions e st)
      as [[a1|x] st1] eqn:E.
    + intros H Hd. eapply evolves_trans.
      * eapply scaffold_entry_evolves; [exact E|].
        eapply content_left_ok. exact Hd.
      * eapply IH; eauto.
    + intros [= <- <-] Hd. eapply scaffold_entry_evolves; eauto.
Qed.

Lemma create_scaffold_evolves (root : Path) (entries : list entry)
    (base_root : Path) (dry force : bool) (dfc : option str)
    (r : result (list action)) (d : str) (st st' : fs) :
  create_scaffold root entries base_root dry force dfc st = (r, st') ->
  content_left (default [] dfc) r d ->
  evolves d st st'.
Proof.
  unfold create_scaffold, mbind, M_bind.
  destruct ((if negb dry then mkdir_p _ else mret tt) st)
    as [[x|e] st0] eqn:E.
  - intros H Hd. eapply evolves_trans;
      [|eapply scaffold_loop_evolves; [exact H|exact Hd]].
    destruct dry; simpl in E.
    + injection E as _ <-. apply evolves_refl.
    + eapply mkdir_parents_evolves. exact E.
  - intros [= _ <-] _. destruct dry; simpl in E; [discriminate|].
    eapply mkdir_parents_evolves. exact E.
Qed.

(** X8. Whatever the flags, and whether the run returns or is aborted, the
    only changes of [create_scaffold] are new directories and written files.
    What a write leaves in a file is the default content, or nothing when
    UTF-8 cannot encode the default content. A directory stays a directory;
    a file keeps its content, unless the run is forced and not dry, where it
    may hold what a write leaves; nothing is removed; and a node at a
    location that held nothing is a directory or a file with what a write
    leaves. *)
Theorem run_only_adds_or_resets (root : Path) (entries : list entry)
    (base_root : Path) (dry force : bool) (dfc : option str)
    (r : result (list action)) (st st' : fs) :
  create_scaffold root entries base_root dry force dfc st = (r, st') ->
  let written :=
    if utf8_encodable (default [] dfc) then default [] dfc else [] in
  (forall l, nodes st !! l = Some Dir -> nodes st' !! l = Some Dir)
  /\ (forall l content,
        nodes st !! l = Some (File content) ->
        nodes st' !! l = Some (File content)
        \/ (force = true /\ dry = false
            /\ nodes st' !! l = Some (File written)))
  /\ (forall l n,
        nodes st !! l = None -> nodes st' !! l = Some n ->
        n = Dir \/ n = File written).
Proof.
  intros Hrun written.
  assert (Hev : evolves written st st').
  { eapply create_scaffold_evolves; [exact Hrun|].
    unfold content_left, written.
    destruct (utf8_encodable (default [] dfc)); [reflexivity|].
    destruct r as [acts|e]; [exact I|reflexivity]. }
  destruct Hev as [_ H]. split; [|split].
  - intros l Hl. destruct (H l) as [E | [[N _] | [N _]]]; congruence.
  - intros l content Hl. destruct force.
    + destruct dry.
      * rewrite create_scaffold_dry in Hrun. injection Hrun as _ <-.
        now left.
      * destruct (H l) as [E | [[N _] | [_ F]]];
          [left; congruence|congruence|right; auto].
    + left. apply create_scaffold_extends in Hrun as (_ & Hsub & _).
      eapply lookup_weaken; eauto.
  - intros l n Hl Hn.
    destruct (H l) as [E | [[_ D] | [_ F]]]; [congruence|left|right];
      congruence.
Qed.

Lemma run_only_adds_or_resets_witness :
  nodes (snd (create_scaffold proj notes_then_new out false true
                (Some (u "hello")) with_notes))
    !! [u "notes.txt"; u "root"; u "out"] = Some (File (u "keep"))
  \/ (true = true /\ false = false
      /\ nodes (snd (create_scaffold proj notes_then_new out false true
                       (Some (u "hello")) with_notes))
           !! [u "notes.txt"; u "root"; u "out"] = Some (File (u "hello"))).
Proof.
  apply (proj1 (proj2 (run_only_adds_or_resets proj notes_then_new out false
                         true (Some (u "hello"))
                         (fst (create_scaffold proj notes_then_new out false
                                 true (Some (u "hello")) with_notes))
                         with_notes
                         (snd (create_scaffold proj notes_then_new out false
                                 true (Some (u "hello")) with_notes))
                         ltac:(vm_compute; reflexivity)))
           [u "notes.txt"; u "root"; u "out"] (u "keep")).
  vm_compute. reflexivity.
Defined.

(** ** The scaffold builder: what a returned run has made *)

Lemma entry_done_evolves (root_abs : Path) (force : bool) (data : str)
    (st st' : fs) (e : entry) :
  evolves data st st' ->
  entry_done root_abs force data st e -> entry_done root_abs force data st' e.
Proof.
  intros Hev. unfold entry_done. destruct (snd e).
  - now apply (is_dir_evolves data).
  - intros (Hex & Hpar & Hforce). split; [|split].
    + eapply path_exists_evolves; eauto.
    + eapply is_dir_evolves; eauto.
    + intros Hf. destruct (Hforce Hf) as [Hd|Hr].
      * left. eapply is_dir_evolves; eauto.
      * right. eapply read_default_evolves; eauto.
Qed.

Lemma scaffold_entry_done (root_abs : Path) (force : bool)
    (dfc : option str) (actions acts : list action) (e : entry)
    (st st' : fs) :
  scaffold_entry root_abs false force dfc actions e st = (Ok acts, st') ->
  entry_done root_abs force (default [] dfc) st' e.
Proof.
  destruct e as [rel [|]]; unfold entry_done; simpl fst; simpl snd;
    cbv iota.
  - rewrite scaffold_entry_dir.
    destruct (mkdir_p _ st) as [[x|e] st1] eqn:E; [|discriminate].
    intros [= _ <-]. eapply mkdir_p_ok_is_dir. exact E.
  - rewrite scaffold_entry_file.
    set (target := path_div root_abs (Path_of rel)).
    destruct (mkdir_p (path_parent target) st) as [[x|e] st1] eqn:E;
      [|discriminate].
    pose proof (mkdir_p_ok_is_dir _ _ _ _ E) as Hpar.
    destruct (path_exists st1 target && negb (force && is_file st1 target))
      eqn:C.
    + intros [= _ <-]. apply andb_true_iff in C as [Hex Hnf].
      split; [exact Hex|]. split; [exact Hpar|].
      intros ->. left. simpl in Hnf. apply negb_true_iff in Hnf.
      unfold path_exists, is_file, is_dir in *.
      destruct (stat st1 target) as [[|c]|]; auto; discriminate.
    + destruct (write_text target (default [] dfc) st1)
        as [[y|e] st2] eqn:W; [|discriminate].
      intros [= _ <-].
      apply write_text_cases in W
        as [(name & d & c & Hl & Hd & Hdd & Hn & Hpe & -> & Hc)
           | (e & [=] & _)].
      destruct Hc as [(_ & -> & _)|([=] & _)].
      pose proof (stat_after_put st1 target name d (File (default [] dfc))
                    (Write (name :: d) (default [] dfc)) Hpe Hl Hd Hdd Hn)
        as Hst.
      split; [unfold path_exists; now rewrite Hst|].
      split.
      { eapply (is_dir_evolves (default [] dfc)); [|exact Hpar].
        apply evolves_put_file. unfold node_at in Hn. exact Hn. }
      intros _. right. unfold read_text. now rewrite Hst.
Qed.

Lemma scaffold_loop_done (root_abs : Path) (force : bool)
    (dfc : option str) (entries : list entry) (actions acts : list action)
    (st st' : fs) :
  scaffold_loop root_abs false force dfc actions entries st = (Ok acts, st') ->
  Forall (entry_done root_abs force (default [] dfc) st') entries.
Proof.
  revert actions st. induction entries as [|e entries IH]; intros actions st.
  - constructor.
  - simpl. unfold mbind, M_bind.
    destruct (scaffold_entry root_abs false force dfc actions e st)
      as [[a1|x] st1] eqn:E; [|discriminate].
    intros H. constructor; [|eapply IH; exact H].
    eapply entry_done_evolves.
    + eapply scaffold_loop_evolves; [exact H|].
      unfold content_left. destruct (utf8_encodable _); [reflexivity|exact I].
    + eapply scaffold_entry_done. exact E.
Qed.

(** X9. After a run that was not dry and returned, the root is a directory,
    every directory entry is a directory, and the target of every file entry
    exists below a directory. *)
Theorem returned_run_made_everything (root : Path) (entries : list entry)
    (base_root : Path) (force : bool) (dfc : option str)
    (acts : list action) (st st' : fs) :
  create_scaffold root entries base_root false force dfc st = (Ok acts, st') ->
  let root_abs := path_div base_root root in
  is_dir st' root_abs = true
  /\ forall (rel : str) (d : bool),
       (rel, d) ∈ entries ->
       let target := path_div root_abs (Path_of rel) in
       if d then is_dir st' target = true
       else path_exists st' target = true
            /\ is_dir st' (path_parent target) = true.
Proof.
  unfold create_scaffold. simpl negb. cbv iota. unfold mbind, M_bind.
  destruct (mkdir_p (path_div base_root root) st) as [[x|e] st0] eqn:E;
    [|discriminate].
  intros H. split.
  - eapply (is_dir_evolves (default [] dfc)).
    + eapply scaffold_loop_evolves; [exact H|].
      unfold content_left. destruct (utf8_encodable _); [reflexivity|exact I].
    + eapply mkdir_p_ok_is_dir. exact E.
  - intros rel d Hin. apply scaffold_loop_done in H.
    rewrite Forall_forall in H. apply H in Hin. unfold entry_done in Hin.
    simpl in Hin. destruct d; [exact Hin|]. tauto.
Qed.

Lemma returned_run_made_everything_witness :
  is_dir (snd (create_scaffold proj tree_entries out false false
                 (Some (u "hi")) fresh))
         (path_div (path_div out proj) (Path_of (u "a"))) = true.
Proof.
  apply (proj2 (returned_run_made_everything proj tree_entries out false
                  (Some (u "hi")) (planned_actions proj tree_entries out)
                  fresh
                  (snd (create_scaffold proj tree_entries out false false
                          (Some (u "hi")) fresh))
                  ltac:(vm_compute; reflexivity))
               (u "a") true).
  apply list_elem_of_here.
Defined.

(** X10. After a run with [force] that was not dry and returned, the target
    of every file entry is a directory or a file that holds exactly the
    default content. *)
Theorem forced_run_resets_files (root : Path) (entries : list entry)
    (base_root : Path) (dfc : option str) (acts : list action)
    (st st' : fs) :
  create_scaffold root entries base_root false true dfc st = (Ok acts, st') ->
  forall rel,
    (rel, false) ∈ entries ->
    let target := path_div (path_div base_root root) (Path_of rel) in
    is_dir st' target = true \/ read_text st' target = Some (default [] dfc).
Proof.
  unfold create_scaffold. simpl negb. cbv iota. unfold mbind, M_bind.
  destruct (mkdir_p (path_div base_root root) st) as [[x|e] st0] eqn:E;
    [|discriminate].
  intros H rel Hin. apply scaffold_loop_done in H.
  rewrite Forall_forall in H. apply H in Hin. unfold entry_done in Hin.
  simpl in Hin. destruct Hin as (_ & _ & Hf). now apply Hf.
Qed.

Lemma forced_run_resets_files_witness :
  is_dir (snd (create_scaffold proj notes_then_new out false true
                 (Some (u "hello")) with_notes))
         (path_div (path_div out proj) (Path_of (u "notes.txt"))) = true
  \/ read_text (snd (create_scaffold proj notes_then_new out false true
                       (Some (u "hello")) with_notes))
               (path_div (path_div out proj) (Path_of (u "notes.txt")))
     = Some (default [] (Some (u "hello"))).
Proof.
  apply (forced_run_resets_files proj notes_then_new out (Some (u "hello"))
           (planned_actions proj notes_then_new out) with_notes).
  - vm_compute. reflexivity.
  - apply list_elem_of_here.
Defined.

(** ** The command line: [main] *)

(** X11. With the dry-run flag, [main] leaves the file system as it is,
    whatever the input and however it ends; and whenever [main] stops with
    [SystemExit], nothing has been changed either. *)
Theorem main_dry_run_changes_nothing (args : Namespace) (stdin_text : str)
    (st : fs) :
  (arg_dry_run args = true -> snd (main args stdin_text st) = st)
  /\ forall message,
       fst (main args stdin_text st) = Stopped (SystemExit message) ->
       snd (main args stdin_text st) = st.
Proof.
  unfold main.
  destruct (load_source args stdin_text st) as [why|markdown];
    [split; reflexivity|].
  destruct (normalize_root_and_entries _) as [[root_dir entries]|e];
    [|split; reflexivity].
  destruct (is_empty entries && _); [split; reflexivity|]. split.
  - intros ->. now rewrite create_scaffold_dry.
  - destruct (create_scaffold _ _ _ _ _ _ st) as [[acts|e] st'];
      discriminate.
Qed.

Lemma main_dry_run_changes_nothing_witness :
  snd (main (mkArgs false (Some (u "root/")) None (u ".") true false [])
            [] fresh) = fresh.
Proof.
  apply (proj1 (main_dry_run_changes_nothing
                  (mkArgs false (Some (u "root/")) None (u ".") true false [])
                  [] fresh)).
  reflexivity.
Defined.

Lemma contains_all (p : N -> bool) (s sub : str) :
  forallb p s = true -> contains s sub = true -> forallb p sub = true.
Proof.
  induction s as [|c s IH]; intros Hs H.
  - change (contains [] sub) with (startswith [] sub || false) in H.
    rewrite orb_false_r in H. eapply startswith_all; eauto.
  - change (contains (c :: s) sub)
      with (startswith (c :: s) sub || contains s sub) in H.
    apply orb_true_iff in H as [H|H].
    + eapply startswith_all; eauto.
    + simpl in Hs. apply andb_true_iff in Hs as [_ Hs]. auto.
Qed.

Lemma forallb_drop_while (p q : N -> bool) (s : str) :
  forallb p s = true -> forallb p (drop_while q s) = true.
Proof.
  induction s as [|c s IH]; simpl; [auto|]. intros H.
  apply andb_true_iff in H as [Hc H].
  destruct (q c); [auto|]. simpl. now rewrite Hc, H.
Qed.

Lemma forallb_strip (p : N -> bool) (s : str) :
  forallb p s = true -> forallb p (strip s) = true.
Proof.
  intros H. unfold strip, strip_by, rstrip_by, lstrip_by.
  rewrite forallb_rev. apply forallb_drop_while. rewrite forallb_rev.
  now apply forallb_drop_while.
Qed.

(** The block holds only characters of the input. *)
Lemma extract_tree_block_chars (p : N -> bool) (markdown : str) :
  forallb p markdown = true ->
  forallb p (extract_tree_block markdown) = true.
Proof.
  intros H. unfold extract_tree_block.
  assert (Hf : forall b, b ∈ findall_fences 0 markdown ->
                         forallb p b = true).
  { intros b Hb. pose proof (findall_fences_spec [] markdown 0) as HF.
    rewrite Forall_forall in HF. destruct (HF b Hb) as [_ Hc].
    apply (contains_all p) in Hc; [|exact H].
    rewrite forallb_app in Hc. now apply andb_true_iff in Hc as [Hc _]. }
  destruct (findall_fences 0 markdown) as [|f0 fs] eqn:E;
    [now apply forallb_strip|].
  assert (Hs : forall b, b ∈ sorted_by_len_desc (f0 :: fs) ->
                         forallb p b = true).
  { intros b Hb. apply Hf. now apply sorted_by_len_desc_elem. }
  destruct (List.find looks_like_tree (sorted_by_len_desc (f0 :: fs)))
    as [b|] eqn:F.
  - apply forallb_strip, Hs. apply find_some in F as [F _].
    now apply list_elem_of_In.
  - apply forallb_strip.
    destruct (sorted_by_len_desc (f0 :: fs)) as [|h t]; [reflexivity|].
    apply Hs. left.
Qed.

Lemma splitlines_aux_chars (p : N -> bool) (after_cr : bool) (cur s : str) :
  forallb p cur = true -> forallb p s = true ->
  Forall (fun ln => forallb p ln = true) (splitlines_aux after_cr cur s).
Proof.
  revert after_cr cur. induction s as [|c s IH]; intros after_cr cur Hcur Hs;
    simpl.
  - destruct cur; constructor; [|constructor]. now rewrite forallb_rev.
  - simpl in Hs. apply andb_true_iff in Hs as [Hc Hs].
    destruct (after_cr && (c =? NL)%N); [now apply IH|].
    destruct (is_linebreak c).
    + constructor; [now rewrite forallb_rev|]. now apply IH.
    + apply IH; [|exact Hs]. simpl. now rewrite Hc.
Qed.

(** A tree line holds a marker. *)
Lemma is_tree_line_marker (ln : str) :
  is_tree_line ln = true ->
  forallb (fun c => negb (mem c MARKERS)) ln = false.
Proof.
  unfold is_tree_line. destruct (is_empty (strip ln)); [discriminate|].
  simpl existsb. rewrite !orb_false_r, !orb_true_iff. intros H.
  destruct (forallb (fun c => negb (mem c MARKERS)) ln) eqn:E;
    [|reflexivity].
  repeat match goal with
         | H : _ \/ _ |- _ => destruct H as [H|H]
         end;
    apply (contains_all _ _ _ E) in H; vm_compute in H; discriminate.
Qed.

Lemma no_marker_no_lines (block : str) :
  forallb (fun c => negb (mem c MARKERS)) block = true ->
  parse_tree_lines block = [].
Proof.
  intros H. unfold parse_tree_lines, splitlines.
  pose proof (splitlines_aux_chars _ false [] block eq_refl H) as HF.
  induction HF as [|ln lines Hln _ IH]; [reflexivity|]. simpl.
  destruct (is_tree_line ln) eqn:E; [|exact IH].
  apply is_tree_line_marker in E. congruence.
Qed.

(** X12. When the text that [load_source] returns holds no tee, elbow,
    vertical bar, dash, slash or backslash, [main] stops with the message
    that no entries were parsed, whatever the flags, and leaves the file
    system as it is. *)
Theorem main_without_markers (args : Namespace) (stdin_text markdown : str)
    (st : fs) :
  load_source args stdin_text st = inr markdown ->
  forallb (fun c => negb (mem c MARKERS)) markdown = true ->
  main args stdin_text st = (Stopped (SystemExit NO_ENTRIES), st).
Proof.
  intros Hload Hno. unfold main. rewrite Hload.
  rewrite no_marker_no_lines by now apply extract_tree_block_chars.
  reflexivity.
Qed.

Lemma main_without_markers_witness :
  main (mkArgs true None None (u ".") false true (u "x"))
       (u "a project with src and docs") fresh
  = (Stopped (SystemExit NO_ENTRIES), fresh).
Proof.
  apply (main_without_markers _ _ (u "a project with src and docs"));
    vm_compute; reflexivity.
Defined.

Lemma Path_of_root (s : str) :
  p_root (Path_of s) = [] \/ startswith (p_root (Path_of s)) [SLASH] = true.
Proof.
  unfold Path_of. destruct (splitroot s) as [root rel] eqn:E. simpl.
  unfold splitroot in E. destruct s as [|c0 rest]; [injection E as <- _; auto|].
  destruct (c0 =? SLASH)%N; [|injection E as <- _; auto].
  destruct rest as [|c1 rest']; [injection E as <- _; auto|].
  destruct ((c1 =? SLASH)%N && _); injection E as <- _; auto.
Qed.

Lemma normalize_root_parsed (lines : list str) (root : Path)
    (entries : list entry) :
  normalize_root_and_entries lines = Ok (root, entries) ->
  exists s, root = Path_of s.
Proof.
  destruct lines as [|first rest]; simpl.
  - intros E. injection E as <- _. eauto.
  - unfold root_of_line. destruct (last_item _) as [x|e]; [|discriminate].
    simpl. destruct (parse_loop _ _ _); [|discriminate]. simpl.
    intros E. injection E as <- _. eauto.
Qed.

Lemma path_div_rooted (a : Path) (s : str) :
  startswith (p_root a) [SLASH] = true ->
  startswith (p_root (path_div a (Path_of s))) [SLASH] = true.
Proof.
  intros Ha. unfold path_div. destruct (Path_of_root s) as [H|H].
  - now rewrite H.
  - destruct (p_root (Path_of s)) eqn:E; [discriminate|].
    simpl. now rewrite E.
Qed.

Lemma path_str_rooted (p : Path) :
  startswith (p_root p) [SLASH] = true ->
  startswith (path_str p) [SLASH] = true.
Proof.
  unfold path_str. destruct (p_root p) as [|c r]; [discriminate|].
  intros H. now apply startswith_app.
Qed.

(** X13. When [main] prints its report, the report is one line for the
    root directory followed by one line per parsed entry, in order; each line
    is the word mkdir or touch, three spaces, and an absolute path. *)
Theorem main_report_lines (args : Namespace) (stdin_text : str) (st st' : fs)
    (out : list str) :
  main args stdin_text st = (Printed out, st') ->
  exists markdown root entries,
    load_source args stdin_text st = inr markdown
    /\ normalize_root_and_entries
         (parse_tree_lines (extract_tree_block markdown)) = Ok (root, entries)
    /\ out = map format_action
               (planned_actions root entries
                  (resolve st (Path_of (arg_root args))))
    /\ length out = S (length entries)
    /\ Forall2 (fun ln (verb : str) =>
                  exists path, ln = verb ++ u "   " ++ path
                               /\ startswith path [SLASH] = true)
               out
               (u "mkdir"
                :: map (fun e : entry => if snd e then u "mkdir" else u "touch")
                     entries).
Proof.
  unfold main. destruct (load_source args stdin_text st) as [why|markdown];
    [discriminate|].
  destruct (normalize_root_and_entries _) as [[root entries]|e] eqn:En;
    [|discriminate].
  destruct (is_empty entries && _); [discriminate|].
  destruct (create_scaffold _ _ _ _ _ _ st) as [[acts|e] st1] eqn:Ec;
    [|discriminate].
  intros E. injection E as <- _.
  apply create_scaffold_actions in Ec. subst acts.
  exists markdown, root, entries.
  split; [reflexivity|]. split; [exact En|]. split; [reflexivity|]. split.
  - rewrite length_map. unfold planned_actions. cbv zeta.
    change (length (?a :: ?l)) with (S (length l)). now rewrite length_map.
  - destruct (normalize_root_parsed _ _ _ En) as [s ->].
    set (base := resolve st (Path_of (arg_root args))).
    assert (Hb : startswith (p_root (path_div base (Path_of s))) [SLASH]
                 = true) by now apply path_div_rooted.
    clear En. unfold planned_actions. cbv zeta. simpl map. constructor.
    + exists (path_str (path_div base (Path_of s))). split; [reflexivity|].
      now apply path_str_rooted.
    + induction entries as [|[rel d] entries IH]; simpl; constructor.
      * exists (path_str (path_div (path_div base (Path_of s)) (Path_of rel))).
        split; [destruct d; reflexivity|].
        now apply path_str_rooted, path_div_rooted.
      * apply IH.
Qed.

Lemma main_report_lines_witness :
  exists markdown root entries,
    load_source (mkArgs false None (Some (u "/out/tree.md")) (u "/out") true
                   false [])
                [] with_tree_file = inr markdown
    /\ normalize_root_and_entries
         (parse_tree_lines (extract_tree_block markdown)) = Ok (root, entries)
    /\ [u "mkdir   /out/root"; u "touch   /out/root/a"]
       = map format_action
           (planned_actions root entries
              (resolve with_tree_file (Path_of (u "/out"))))
    /\ length [u "mkdir   /out/root"; u "touch   /out/root/a"]
       = S (length entries)
    /\ Forall2 (fun ln (verb : str) =>
                  exists path, ln = verb ++ u "   " ++ path
                               /\ startswith path [SLASH] = true)
               [u "mkdir   /out/root"; u "touch   /out/root/a"]
               (u "mkdir"
                :: map (fun e : entry => if snd e then u "mkdir" else u "touch")
                     entries).
Proof.
  apply (main_report_lines
           (mkArgs false None (Some (u "/out/tree.md")) (u "/out") true false
              [])
           [] with_tree_file with_tree_file).
  vm_compute. reflexivity.
Defined.

(** ** Running [main] again *)

Lemma read_file_extends (st st' : fs) (p : Path) (content : str) :
  extends st st' -> read_file st p = Ok content ->
  read_file st' p = Ok content.
Proof.
  intros Hext. unfold read_file. destruct (path_error p); [discriminate|].
  destruct (last (p_parts p)) as [name|]; [|discriminate].
  destruct (holder st p) as [d|e] eqn:Eh; [|discriminate].
  rewrite (holder_extends _ _ _ _ Hext Eh). simpl.
  destruct (str_eqb name DOTDOT); [discriminate|].
  destruct (node_at st (name :: d)) as [[|c]|] eqn:En; try discriminate.
  now rewrite (node_at_extends _ _ _ _ Hext En).
Qed.

Lemma load_source_extends (args : Namespace) (stdin_text markdown : str)
    (st st' : fs) :
  extends st st' -> load_source args stdin_text st = inr markdown ->
  load_source args stdin_text st' = inr markdown.
Proof.
  intros Hext. unfold load_source. destruct (arg_stdin args); [auto|].
  destruct (truthy (arg_text args)); [auto|].
  destruct (truthy (arg_from_file args)); [|auto].
  destruct (read_file st _) as [content|e] eqn:E; [|discriminate].
  now rewrite (read_file_extends _ _ _ _ Hext E).
Qed.

Lemma resolve_extends (st st' : fs) (p : Path) :
  extends st st' -> resolve st' p = resolve st p.
Proof. intros (Hc & _). unfold resolve. now rewrite Hc. Qed.

Lemma create_scaffold_returned_again (root : Path) (entries : list entry)
    (base_root : Path) (dfc : option str) (acts : list action)
    (st st' : fs) :
  create_scaffold root entries base_root false false dfc st = (Ok acts, st') ->
  create_scaffold root entries base_root false false dfc st' = (Ok acts, st').
Proof.
  unfold create_scaffold. simpl negb. cbv iota. unfold mbind, M_bind.
  destruct (mkdir_p (path_div base_root root) st) as [[y|e] st0] eqn:E;
    [|discriminate].
  intros H. pose proof (scaffold_loop_extends _ _ _ _ _ _ _ _ H) as Hext.
  rewrite mkdir_p_existing.
  - eapply scaffold_loop_stable; [exact H|apply extends_refl].
  - eapply is_dir_extends; [exact Hext|]. eapply mkdir_p_ok_is_dir. exact E.
Qed.

Lemma main_again (args : Namespace) (stdin_text : str) (st st' : fs)
    (r : outcome) :
  arg_force args = false ->
  utf8_encodable (arg_default_file_content args) = true
  \/ (exists out, r = Printed out) ->
  main args stdin_text st = (r, st') ->
  exists r', main args stdin_text st' = (r', st')
             /\ forall out, r = Printed out -> r' = Printed out.
Proof.
  intros Hf Henc H.
  assert (Hcase : st' = st \/
            exists markdown root entries res,
              arg_dry_run args = false
              /\ load_source args stdin_text st = inr markdown
              /\ normalize_root_and_entries
                   (parse_tree_lines (extract_tree_block markdown))
                 = Ok (root, entries)
              /\ is_empty entries && bool_decide (root = Path_of (u "."))
                 = false
              /\ create_scaffold root entries
                   (resolve st (Path_of (arg_root args))) false false
                   (Some (arg_default_file_content args)) st = (res, st')
              /\ r = match res with
                     | Ok actions => Printed (map format_action actions)
                     | Raise e => Stopped (Uncaught e)
                     end).
  { revert H. unfold main.
    destruct (load_source args stdin_text st) as [why|markdown] eqn:El;
      [intros [= _ <-]; now left|].
    destruct (normalize_root_and_entries _) as [[root entries]|e] eqn:En;
      [|intros [= _ <-]; now left].
    destruct (is_empty entries && _) eqn:Ee; [intros [= _ <-]; now left|].
    rewrite Hf. destruct (arg_dry_run args) eqn:Ed.
    - rewrite create_scaffold_dry. intros [= _ <-]. now left.
    - destruct (create_scaffold _ _ _ _ _ _ st) as [res st1] eqn:Ec.
      intros H. right. exists markdown, root, entries, res.
      destruct res; injection H as <- <-; repeat split; auto. }
  destruct Hcase as [->|(markdown & root & entries & res & Ed & El & En & Ee
                         & Ec & ->)].
  - exists r. split; [exact H|auto].
  - pose proof (create_scaffold_extends _ _ _ _ _ _ _ _ Ec) as Hext.
    unfold main. cbv zeta.
    rewrite (load_source_extends _ _ _ _ _ Hext El), En, Ee.
    rewrite (resolve_extends _ _ _ Hext), Hf, Ed. cbv beta iota.
    destruct res as [acts|x].
    + rewrite (create_scaffold_returned_again _ _ _ _ _ _ _ Ec). eauto.
    + destruct Henc as [Henc|[out' [=]]].
      apply create_scaffold_aborted_again in Ec as [x' ->]; [|exact Henc].
      eexists. split; [reflexivity|discriminate].
Qed.

(** X14. Without the force flag, running [main] a second time with the same
    arguments and the same standard input, from the state the first run
    left: when the first run printed a report, the second changes nothing
    and prints the same report; and when the default file content can be
    encoded as UTF-8, the second changes nothing however the first ended.
    This holds for each source of the text, also a file that lies inside the
    scaffolded directory. *)
Theorem main_second_run_is_idle (args : Namespace) (stdin_text : str)
    (st : fs) :
  arg_force args = false ->
  let run := main args stdin_text in
  (forall out, fst (run st) = Printed out ->
               run (snd (run st)) = (Printed out, snd (run st)))
  /\ (utf8_encodable (arg_default_file_content args) = true ->
      snd (run (snd (run st))) = snd (run st)).
Proof.
  intros Hf run. destruct (run st) as [r st'] eqn:H. simpl. split.
  - intros out ->.
    destruct (main_again _ _ _ _ _ Hf (or_intror (ex_intro _ out eq_refl)) H)
      as (r' & H2 & Hr).
    fold run in H2. rewrite H2. f_equal. now apply Hr.
  - intros Henc.
    destruct (main_again _ _ _ _ _ Hf (or_introl Henc) H) as (r' & H2 & _).
    fold run in H2. now rewrite H2.
Qed.

Lemma main_second_run_is_idle_witness :
  main (mkArgs true None None (u "/out") false false (u "hi")) small_block
       (snd (main (mkArgs true None None (u "/out") false false (u "hi"))
               small_block fresh))
  = (Printed [u "mkdir   /out/root"; u "mkdir   /out/root/a";
              u "touch   /out/root/a/b.txt"],
     snd (main (mkArgs true None None (u "/out") false false (u "hi"))
            small_block fresh)).
Proof.
  apply (proj1 (main_second_run_is_idle
                  (mkArgs true None None (u "/out") false false (u "hi"))
                  small_block fresh eq_refl)).
  vm_compute. reflexivity.
Defined.
